(** * codecfs: a transcoding view of a directory tree

    Shallow embedding of [main.go].  The program serves a directory through
    FUSE callbacks: [dir.ReadDirAll], [dir.Lookup], [file.Attr], [file.Open],
    [fileHandle.Read] and [nativeFile.Read].  The callbacks share two
    process-wide maps, [allSizes] and [allFiles].

    The operating system, the content sniffer and the encoder process are
    outside the program; they are gathered in the record [Env] and every
    callback takes the environment as its first argument. *)

From Stdlib Require Import ZArith String Ascii Strings.Byte List Bool Lia.
From stdpp Require Import base option list gmap strings relations.
Import ListNotations.

Local Open Scope string_scope.
Local Open Scope list_scope.
Local Open Scope Z_scope.

(** ** Machine integers *)

(** Conversion to [int64]: two's complement wrap-around. *)
Definition int64 (z : Z) : Z := (z + 2 ^ 63) mod 2 ^ 64 - 2 ^ 63.

(** Conversion to [uint64]. *)
Definition uint64 (z : Z) : Z := z mod 2 ^ 64.

(** [len(b)] as a Go [int]. *)
Definition Len {A} (l : list A) : Z := Z.of_nat (length l).

(** ** Errors, results and panics *)

Inductive error :=
| io_EOF
| io_ErrUnexpectedEOF
| os_ErrNotExist
| fuse_ENOENT
| other_error (msg : string).

(** [os.IsNotExist]. *)
Definition IsNotExist (e : option error) : bool :=
  match e with
  | Some os_ErrNotExist => true
  | _ => false
  end.

Inductive result (A : Type) :=
| Ok (a : A)
| Err (e : error).
Arguments Ok {A} a.
Arguments Err {A} e.

(** The error half of a Go [(value, error)] pair. *)
Definition err_of {A} (r : result A) : option error :=
  match r with
  | Ok _ => None
  | Err e => Some e
  end.

(** A callback either returns or panics (negative [make], slice bounds). *)
Inductive outcome (A : Type) :=
| Return (a : A)
| Panic (msg : string).
Arguments Return {A} a.
Arguments Panic {A} msg.

(** ** The file system seen through package [os] *)

Inductive FileMode := ModeDir | ModeRegular | ModeIrregular.

Definition IsDir (m : FileMode) : bool :=
  match m with ModeDir => true | _ => false end.

Definition IsRegular (m : FileMode) : bool :=
  match m with ModeRegular => true | _ => false end.

(** [os.FileInfo]: the parts the program looks at. *)
Record FileInfo := {
  Name : string;
  Mode : FileMode;
  Size : Z
}.

(** What lives at a path.  [open_err] makes [os.Open] fail although the path
    exists; [read_fault] is the byte offset at which reading fails, with
    the message of the failure;
    [children] is what [Readdir(-1)] answers on the opened path. *)
Record Inode := {
  st_mode : FileMode;
  st_size : Z;
  open_err : option string;
  contents : list byte;
  read_fault : option (nat * string);
  children : result (list FileInfo)
}.

Inductive PathState :=
| Absent
| Unreachable (msg : string)
| Present (i : Inode).

(** An opened [os.File]. *)
Record File := {
  file_path : string;
  file_inode : Inode
}.

(** The standard output of a child process: the bytes it will still
    deliver, then either a clean end or a read failure. *)
Record Pipe := {
  pending : list byte;
  broken : option string
}.

(** A started [exec.Cmd]: its stdout pipe and the result of [Wait]. *)
Record Process := {
  stdout : Pipe;
  wait : option error
}.

(** Everything outside the program. *)
Record Env := {
  path_state : string -> PathState;
  Join : string -> string -> string;
  DetectContentType : list byte -> string;
  start : string -> list string -> result Process
}.

(** [os.Stat]. *)
Definition os_Stat (env : Env) (path : string) : result FileInfo :=
  match path_state env path with
  | Absent => Err os_ErrNotExist
  | Unreachable msg => Err (other_error msg)
  | Present i => Ok {| Name := path; Mode := st_mode i; Size := st_size i |}
  end.

(** [os.Open]. *)
Definition os_Open (env : Env) (path : string) : result File :=
  match path_state env path with
  | Absent => Err os_ErrNotExist
  | Unreachable msg => Err (other_error msg)
  | Present i =>
      match open_err i with
      | Some msg => Err (other_error msg)
      | None => Ok {| file_path := path; file_inode := i |}
      end
  end.

(** [File.Stat] on an open descriptor; it does not fail on a descriptor
    that [os.Open] has just returned. *)
Definition File_Stat (f : File) : result FileInfo :=
  Ok {| Name := file_path f;
        Mode := st_mode (file_inode f);
        Size := st_size (file_inode f) |}.

(** [File.Readdir(-1)]. *)
Definition File_Readdir (f : File) : result (list FileInfo) :=
  children (file_inode f).

(** The error a short read ends with. *)
Definition short_read_error (i : Inode) : error :=
  match read_fault i with
  | Some (p, msg) =>
      if (p <=? length (contents i))%nat then other_error msg else io_EOF
  | None => io_EOF
  end.

(** Repeated [pread] from byte [off] on, asking for [n] bytes. *)
Definition read_span (i : Inode) (off n : nat) : list byte * option error :=
  let readable :=
    match read_fault i with
    | Some (p, _) => take p (contents i)
    | None => contents i
    end in
  let got := take n (drop off readable) in
  if (length got <? n)%nat then (got, Some (short_read_error i))
  else (got, None).

(** [File.ReadAt(b, off)] with [len(b) = n]: the bytes stored into
    [b] and the error. *)
Definition File_ReadAt (f : File) (n : Z) (off : Z) : list byte * option error :=
  if off <? 0 then ([], Some (other_error "negative offset"))
  else read_span (file_inode f) (Z.to_nat off) (Z.to_nat n).

(** [make([]byte, n)] for [0 <= n]. *)
Definition make (n : Z) : list byte := repeat x00 (Z.to_nat n).

(** [copy(dst, src)]: the new [dst] and the number of bytes copied. *)
Definition copy (dst src : list byte) : list byte * Z :=
  let n := Nat.min (length dst) (length src) in
  (take n src ++ drop n dst, Z.of_nat n).

(** [io.ReadFull(file, buf[:])] into a zeroed array of [n] bytes, reading
    from the start of the file. *)
Definition ReadFull (f : File) (n : nat) : list byte * option error :=
  let '(got, e) := read_span (file_inode f) 0 n in
  let buf := fst (copy (repeat x00 n) got) in
  match e with
  | None => (buf, None)
  | Some io_EOF =>
      if (length got =? 0)%nat then (buf, Some io_EOF)
      else (buf, Some io_ErrUnexpectedEOF)
  | Some e' => (buf, Some e')
  end.

(** [io.CopyN(dst, src, n)] from a pipe into the buffer: the grown buffer,
    the rest of the pipe and the error. *)
Definition CopyN (buf : list byte) (p : Pipe) (n : Z)
  : list byte * Pipe * option error :=
  let got := take (Z.to_nat n) (pending p) in
  let p' := {| pending := drop (Z.to_nat n) (pending p); broken := broken p |} in
  if Len got <? n then
    (buf ++ got, p',
     Some (match broken p with Some msg => other_error msg | None => io_EOF end))
  else (buf ++ got, p', None).

(** ** Package [strings] and [path/filepath] *)

Definition IsPathSeparator (c : ascii) : bool := Ascii.eqb c "/".

(** The loop of [filepath.Ext]: [before] is [path[:i+1]] read backwards and
    [after] is [path[i+1:]]. *)
Fixpoint Ext_loop (before : list ascii) (after : string) : string :=
  match before with
  | [] => ""
  | c :: before' =>
      if IsPathSeparator c then ""
      else if Ascii.eqb c "." then String c after
      else Ext_loop before' (String c after)
  end.

Definition Ext (path : string) : string :=
  Ext_loop (rev (list_ascii_of_string path)) "".

Definition HasPrefix (s pre : string) : bool := String.prefix pre s.

Definition HasSuffix (s suf : string) : bool :=
  (String.length suf <=? String.length s)%nat &&
  String.eqb (substring (String.length s - String.length suf) (String.length suf) s) suf.

(** [s[n:]]. *)
Fixpoint string_drop (n : nat) (s : string) : string :=
  match n, s with
  | O, _ => s
  | S n', String _ s' => string_drop n' s'
  | S _, EmptyString => EmptyString
  end.

(** Replace the first occurrence of [old]; an empty [old] matches at the
    start of the string. *)
Fixpoint replace_first (s old new : string) : string :=
  if String.prefix old s then new +:+ string_drop (String.length old) s
  else
    match s with
    | EmptyString => EmptyString
    | String c s' => String c (replace_first s' old new)
    end.

(** [strings.Replace(s, old, new, 1)]. *)
Definition Replace1 (s old new : string) : string :=
  if String.eqb old new then s else replace_first s old new.

(** [b[lo:hi]] for [0 <= lo <= hi <= len(b)]. *)
Definition slice {A} (b : list A) (lo hi : Z) : list A :=
  take (Z.to_nat (hi - lo)) (drop (Z.to_nat lo) b).

(** ** Nodes, handles and the two process-wide maps *)

Record Root := { Root_dir : string }.

Record dir := {
  dir_dir : string;
  dir_encoder : string
}.

Record file := {
  file_name : string;
  file_encoder : string
}.

Inductive Node :=
| NodeRoot (r : Root)
| NodeDir (d : dir)
| NodeFile (f : file).

Inductive DirentType := DT_Unknown | DT_File | DT_Dir.

Record Dirent := {
  Dirent_Inode : Z;
  Dirent_Type : DirentType;
  Dirent_Name : string
}.

Record Attr := {
  Attr_Inode : Z;
  Attr_Mode : Z;
  Attr_Size : Z
}.

(** [os.ModeDir], bit 31 of [os.FileMode]. *)
Definition os_ModeDir : Z := Z.shiftl 1 31.

(** Octal [0555]. *)
Definition perm_0555 : Z := 365.

Record ReadRequest := {
  req_Offset : Z;
  req_Size : Z
}.

Record fileHandle := {
  fh_name : string;
  fh_close : option error;
  fh_pipe : Pipe;
  fh_buffer : list byte;
  fh_encoder : string
}.

Record nativeFile := { native_File : File }.

Inductive Handle :=
| HandleTranscode (fh : fileHandle)
| HandleNative (nf : nativeFile).

(** [allSizes] and [allFiles]. *)
Record Globals := {
  allSizes : gmap string Z;
  allFiles : gmap string string
}.

(** ** Root *)

Definition Root_Attr (r : Root) (a : Attr) : Attr * option error :=
  ({| Attr_Inode := 1; Attr_Mode := Z.lor os_ModeDir perm_0555; Attr_Size := Attr_Size a |},
   None).

Definition Root_ReadDirAll (r : Root) : result (list Dirent) :=
  Ok [ {| Dirent_Inode := 2; Dirent_Type := DT_Dir; Dirent_Name := "ogg" |} ].

Definition Root_Lookup (r : Root) (name : string) : result Node :=
  if String.eqb name "ogg" then
    Ok (NodeDir {| dir_dir := Root_dir r; dir_encoder := "ogg" |})
  else Err fuse_ENOENT.

(** ** Directories *)

Definition dir_Attr (d : dir) (a : Attr) : Attr * option error :=
  ({| Attr_Inode := Attr_Inode a; Attr_Mode := Z.lor os_ModeDir perm_0555;
      Attr_Size := Attr_Size a |}, None).

Definition isAudio (env : Env) (path : string) : bool :=
  match os_Open env path with
  | Err _ => false
  | Ok f =>
      let '(buf, e) := ReadFull f 512 in
      match e with
      | Some io_EOF | None =>
          let contentType := DetectContentType env buf in
          HasPrefix contentType "audio/" ||
          HasPrefix contentType "video/" ||
          String.eqb contentType "application/ogg" ||
          HasSuffix path ".flac"
      | Some _ => false
      end
  end.

Definition DirentType_eqb (a b : DirentType) : bool :=
  match a, b with
  | DT_Unknown, DT_Unknown | DT_File, DT_File | DT_Dir, DT_Dir => true
  | _, _ => false
  end.

(** One turn of the loop of [dir.ReadDirAll] over the entry [ent]. *)
Definition ReadDirAll_step (env : Env) (d : dir)
    (st : gmap string string * list Dirent) (ent : FileInfo)
  : gmap string string * list Dirent :=
  let '(files, out) := st in
  if negb (IsDir (Mode ent)) && negb (IsRegular (Mode ent)) then (files, out)
  else
    let typ :=
      if IsDir (Mode ent) then DT_Dir
      else if IsRegular (Mode ent) then DT_File
      else DT_Unknown in
    let name := Name ent in
    let '(name, files) :=
      if DirentType_eqb typ DT_File && isAudio env (Join env (dir_dir d) (Name ent)) then
        let ext := Ext name in
        let name := Replace1 name ext ".ogg" in
        if IsNotExist (err_of (os_Stat env (Join env (dir_dir d) name))) then
          (name, <[Join env (dir_dir d) name := Join env (dir_dir d) (Name ent)]> files)
        else (name, files)
      else (name, files) in
    (files, out ++ [ {| Dirent_Inode := 0; Dirent_Type := typ; Dirent_Name := name |} ]).

Definition dir_ReadDirAll (env : Env) (files : gmap string string) (d : dir)
  : gmap string string * result (list Dirent) :=
  match os_Open env (dir_dir d) with
  | Err e => (files, Err e)
  | Ok f =>
      match File_Readdir f with
      | Err e => (files, Err e)
      | Ok ents =>
          let '(files', out) := fold_left (ReadDirAll_step env d) ents (files, []) in
          (files', Ok out)
      end
  end.

(** The path [dir.Lookup] goes on with after consulting [allFiles]. *)
Definition Lookup_target (env : Env) (files : gmap string string) (d : dir)
    (name : string) : string :=
  let baseNameString := Join env (dir_dir d) name in
  if IsNotExist (err_of (os_Stat env baseNameString)) then
    match files !! baseNameString with
    | Some baseName => baseName
    | None => baseNameString
    end
  else baseNameString.

(** [dir.Lookup] from [os.Open] on: the node for what is at the path. *)
Definition open_node (env : Env) (d : dir) (baseNameString : string) : result Node :=
  match os_Open env baseNameString with
  | Err e => if IsNotExist (Some e) then Err fuse_ENOENT else Err e
  | Ok ford =>
      match File_Stat ford with
      | Err e => Err e
      | Ok stat =>
          if IsDir (Mode stat) then
            Ok (NodeDir {| dir_dir := baseNameString; dir_encoder := dir_encoder d |})
          else if IsRegular (Mode stat) then
            Ok (NodeFile {| file_name := baseNameString; file_encoder := dir_encoder d |})
          else Err fuse_ENOENT
      end
  end.

Definition dir_Lookup (env : Env) (files : gmap string string) (d : dir)
    (name : string) : result Node :=
  open_node env d (Lookup_target env files d name).

(** ** Files *)

Definition with_Size (a : Attr) (size : Z) : Attr :=
  {| Attr_Inode := Attr_Inode a; Attr_Mode := Attr_Mode a; Attr_Size := size |}.

Definition file_Attr (env : Env) (g : Globals) (f : file) (a : Attr)
  : Attr * option error :=
  let a := {| Attr_Inode := Attr_Inode a; Attr_Mode := perm_0555; Attr_Size := Attr_Size a |} in
  match allSizes g !! file_name f with
  | Some realSize => (with_Size a realSize, None)
  | None =>
      match os_Stat env (file_name f) with
      | Ok stat => (with_Size a (uint64 (Size stat)), None)
      | Err e =>
          if IsNotExist (Some e) then
            match allFiles g !! file_name f with
            | Some baseName =>
                match os_Stat env baseName with
                | Err e' => (a, Some e')
                | Ok stat => (with_Size a (uint64 (10 * uint64 (Size stat))), None)
                end
            | None => (a, None)
            end
          else (a, None)
      end
  end.

(** A command line handed to [exec]. *)
Record Command := {
  cmd_name : string;
  cmd_args : list string
}.

Definition encoder_command (f : file) : Command :=
  {| cmd_name := "ffmpeg"; cmd_args := ["-i"; file_name f; "-f"; "ogg"; "-"] |}.

(** [file.Open]: the commands it starts and what it returns. *)
Definition file_Open (env : Env) (f : file) : list Command * result Handle :=
  match os_Open env (file_name f) with
  | Ok file => ([], Ok (HandleNative {| native_File := file |}))
  | Err _ =>
      let c := encoder_command f in
      match start env (cmd_name c) (cmd_args c) with
      | Err e => ([c], Err e)
      | Ok ffmpeg =>
          ([c], Ok (HandleTranscode
                     {| fh_name := file_name f;
                        fh_close := wait ffmpeg;
                        fh_pipe := stdout ffmpeg;
                        fh_buffer := [];
                        fh_encoder := file_encoder f |}))
      end
  end.

(** ** Transcode sessions *)

Definition fileHandle_Release (fh : fileHandle) : option error := fh_close fh.

Definition is_EOF (e : error) : bool :=
  match e with io_EOF => true | _ => false end.

(** [req.Offset+int64(req.Size)]. *)
Definition req_end (req : ReadRequest) : Z :=
  int64 (req_Offset req + int64 (req_Size req)).

(** The "Fill buffer" block of [fileHandle.Read]. *)
Definition fill (fh : fileHandle) (req : ReadRequest) : fileHandle * option error :=
  if Len (fh_buffer fh) <? req_end req then
    let '(buf, p, e) :=
      CopyN (fh_buffer fh) (fh_pipe fh) (int64 (req_end req - Len (fh_buffer fh))) in
    ({| fh_name := fh_name fh; fh_close := fh_close fh; fh_pipe := p;
        fh_buffer := buf; fh_encoder := fh_encoder fh |}, e)
  else (fh, None).

(** The local [min] of [fileHandle.Read]. *)
Definition read_min (blen : Z) (req : ReadRequest) : Z :=
  if req_Offset req >? blen then blen else req_Offset req.

(** The local [max] of [fileHandle.Read]. *)
Definition read_max (blen : Z) (req : ReadRequest) : Z :=
  if req_end req >? blen then blen else req_end req.

(** The part of [fileHandle.Read] after the buffer is filled: the slice
    bounds, [resp.Data], and the end-of-stream test. *)
Definition deliver (fh : fileHandle) (sizes : gmap string Z) (req : ReadRequest)
  : fileHandle * gmap string Z * outcome (list byte * option error) :=
  let blen := Len (fh_buffer fh) in
  let min := read_min blen req in
  let max := read_max blen req in
  if req_Size req <? 0 then (fh, sizes, Panic "makeslice: len out of range")
  else if negb ((0 <=? min) && (min <=? max) && (max <=? blen)) then
    (fh, sizes, Panic "slice bounds out of range")
  else
    let '(data, n) := copy (make (req_Size req)) (slice (fh_buffer fh) min max) in
    if n =? 0 then
      (fh, <[fh_name fh := uint64 blen]> sizes, Return (data, Some io_EOF))
    else (fh, sizes, Return (data, None)).

(** [err != nil && err != io.EOF]. *)
Definition fatal (e : option error) : option error :=
  match e with
  | Some e' => if is_EOF e' then None else Some e'
  | None => None
  end.

(** [fileHandle.Read]: the session afterwards, [allSizes] afterwards, and
    [resp.Data] with the returned error. *)
Definition fileHandle_Read (fh : fileHandle) (sizes : gmap string Z) (req : ReadRequest)
  : fileHandle * gmap string Z * outcome (list byte * option error) :=
  let '(fh, e) := fill fh req in
  match fatal e with
  | Some e' => (fh, sizes, Return ([], Some e'))
  | None => deliver fh sizes req
  end.

(** ** Passthrough handles *)

Definition nativeFile_Read (f : nativeFile) (req : ReadRequest)
  : outcome (list byte * option error) :=
  if req_Size req <? 0 then Panic "makeslice: len out of range"
  else
    let '(stored, e) := File_ReadAt (native_File f) (req_Size req) (req_Offset req) in
    let data := fst (copy (make (req_Size req)) stored) in
    let data := take (length stored) data in
    match e with
    | Some e' => if is_EOF e' then Return (data, None) else Return (data, Some e')
    | None => Return (data, None)
    end.

Definition nativeFile_Release (f : nativeFile) : option error := None.

(** ** The served file system

    The FUSE library keeps the nodes and handles the callbacks return and
    calls back into them.  [Server] is that bookkeeping: the two maps and
    the table of open handles. *)

Record Server := {
  globals : Globals;
  handles : list (option Handle)
}.

Inductive request :=
| ReqReadDirAll (d : dir)
| ReqLookup (d : dir) (name : string)
| ReqAttr (f : file)
| ReqOpen (f : file)
| ReqRead (h : nat) (req : ReadRequest)
| ReqRelease (h : nat).

Inductive reply :=
| RepEntries (r : result (list Dirent))
| RepNode (r : result Node)
| RepAttr (a : Attr) (e : option error)
| RepOpen (started : list Command) (h : result nat)
| RepRead (r : outcome (list byte * option error))
| RepRelease (e : option error)
| RepBadHandle.

Definition zero_Attr : Attr := {| Attr_Inode := 0; Attr_Mode := 0; Attr_Size := 0 |}.

Definition with_sizes (g : Globals) (sizes : gmap string Z) : Globals :=
  {| allSizes := sizes; allFiles := allFiles g |}.

Definition with_files (g : Globals) (files : gmap string string) : Globals :=
  {| allSizes := allSizes g; allFiles := files |}.

(** Dispatch of one request to the callback it names. *)
Definition serve (env : Env) (s : Server) (r : request) : Server * reply :=
  match r with
  | ReqReadDirAll d =>
      let '(files, out) := dir_ReadDirAll env (allFiles (globals s)) d in
      ({| globals := with_files (globals s) files; handles := handles s |}, RepEntries out)
  | ReqLookup d name =>
      (s, RepNode (dir_Lookup env (allFiles (globals s)) d name))
  | ReqAttr f =>
      let '(a, e) := file_Attr env (globals s) f zero_Attr in
      (s, RepAttr a e)
  | ReqOpen f =>
      match file_Open env f with
      | (started, Ok h) =>
          ({| globals := globals s; handles := handles s ++ [Some h] |},
           RepOpen started (Ok (length (handles s))))
      | (started, Err e) => (s, RepOpen started (Err e))
      end
  | ReqRead h req =>
      match handles s !! h with
      | Some (Some (HandleTranscode fh)) =>
          let '(fh', sizes, out) := fileHandle_Read fh (allSizes (globals s)) req in
          ({| globals := with_sizes (globals s) sizes;
              handles := <[h := Some (HandleTranscode fh')]> (handles s) |},
           RepRead out)
      | Some (Some (HandleNative nf)) => (s, RepRead (nativeFile_Read nf req))
      | _ => (s, RepBadHandle)
      end
  | ReqRelease h =>
      match handles s !! h with
      | Some (Some (HandleTranscode fh)) =>
          ({| globals := globals s; handles := <[h := None]> (handles s) |},
           RepRelease (fileHandle_Release fh))
      | Some (Some (HandleNative nf)) =>
          ({| globals := globals s; handles := <[h := None]> (handles s) |},
           RepRelease (nativeFile_Release nf))
      | _ => (s, RepBadHandle)
      end
  end.

(** A run of requests, oldest first. *)
Fixpoint serve_all (env : Env) (s : Server) (rs : list request) : Server :=
  match rs with
  | [] => s
  | r :: rs' => serve_all env (fst (serve env s r)) rs'
  end.

(** A run of reads on one session. *)
Fixpoint read_all (fh : fileHandle) (sizes : gmap string Z) (reqs : list ReadRequest)
  : fileHandle * gmap string Z :=
  match reqs with
  | [] => (fh, sizes)
  | req :: reqs' =>
      let '(fh', sizes', _) := fileHandle_Read fh sizes req in
      read_all fh' sizes' reqs'
  end.

(** ** A sample tree

    [/music] holds one MP3 file; [/both] holds an MP3 file and a real Ogg
    file of the same stem; [/odd] holds an MP3 file whose name carries its
    extension twice; [/fifo] holds an MP3 file next to a named pipe called
    like its Ogg rendition. *)

Definition sample_Join (d n : string) : string := d +:+ "/" +:+ n.

(** The two signatures the sample needs: "ID3" and "OggS". *)
Definition sample_DetectContentType (buf : list byte) : string :=
  match buf with
  | x49 :: x44 :: x33 :: _ => "audio/mpeg"
  | x4f :: x67 :: x67 :: x53 :: _ => "application/ogg"
  | _ => "application/octet-stream"
  end.

Definition mp3_bytes : list byte := [x49; x44; x33] ++ repeat x00 600.

Definition ogg_bytes : list byte := [x4f; x67; x67; x53] ++ repeat x00 700.

Definition regular_file (data : list byte) : Inode :=
  {| st_mode := ModeRegular; st_size := Len data; open_err := None;
     contents := data; read_fault := None;
     children := Err (other_error "not a directory") |}.

Definition directory (ents : list FileInfo) : Inode :=
  {| st_mode := ModeDir; st_size := 4096; open_err := None;
     contents := []; read_fault := Some (O, "is a directory");
     children := Ok ents |}.

Definition named_pipe : Inode :=
  {| st_mode := ModeIrregular; st_size := 0; open_err := None;
     contents := []; read_fault := None;
     children := Err (other_error "not a directory") |}.

Definition entry (name : string) (i : Inode) : FileInfo :=
  {| Name := name; Mode := st_mode i; Size := st_size i |}.

Definition sample_paths : list (string * Inode) :=
  [ ("/music", directory [entry "track.mp3" (regular_file mp3_bytes)]);
    ("/music/track.mp3", regular_file mp3_bytes);
    ("/both", directory [entry "intro.mp3" (regular_file mp3_bytes);
                         entry "intro.ogg" (regular_file ogg_bytes)]);
    ("/both/intro.mp3", regular_file mp3_bytes);
    ("/both/intro.ogg", regular_file ogg_bytes);
    ("/odd", directory [entry "a.mp3.mp3" (regular_file mp3_bytes)]);
    ("/odd/a.mp3.mp3", regular_file mp3_bytes);
    ("/fifo", directory [entry "intro.mp3" (regular_file mp3_bytes);
                         entry "intro.ogg" named_pipe]);
    ("/fifo/intro.mp3", regular_file mp3_bytes);
    ("/fifo/intro.ogg", named_pipe) ].

Fixpoint assoc (k : string) (l : list (string * Inode)) : PathState :=
  match l with
  | [] => Absent
  | (k', i) :: l' => if String.eqb k k' then Present i else assoc k l'
  end.

Definition sample_encoder (name : string) (args : list string) : result Process :=
  Ok {| stdout := {| pending := [x4f; x67; x67; x53; x01; x02]; broken := None |};
        wait := None |}.

Definition sample_env : Env :=
  {| path_state := fun p => assoc p sample_paths;
     Join := sample_Join;
     DetectContentType := sample_DetectContentType;
     start := sample_encoder |}.

Definition music : dir := {| dir_dir := "/music"; dir_encoder := "ogg" |}.
Definition both : dir := {| dir_dir := "/both"; dir_encoder := "ogg" |}.
Definition odd : dir := {| dir_dir := "/odd"; dir_encoder := "ogg" |}.
Definition fifo : dir := {| dir_dir := "/fifo"; dir_encoder := "ogg" |}.

Definition no_globals : Globals := {| allSizes := ∅; allFiles := ∅ |}.

Definition fresh_server : Server := {| globals := no_globals; handles := [] |}.

(** A session over a three-byte stream, nothing read yet. *)
Definition short_session : fileHandle :=
  {| fh_name := "/music/track.ogg"; fh_close := None;
     fh_pipe := {| pending := [x01; x02; x03]; broken := None |};
     fh_buffer := []; fh_encoder := "ogg" |}.

Definition read_request (off size : Z) : ReadRequest :=
  {| req_Offset := off; req_Size := size |}.

(** ** Vocabulary of the statements *)

(** The values an [int64] or a 64-bit [int] can hold. *)
Definition int64_range (z : Z) : Prop := - 2 ^ 63 <= z < 2 ^ 63.

(** A request whose fields are machine integers. *)
Definition well_typed (req : ReadRequest) : Prop :=
  int64_range (req_Offset req) /\ int64_range (req_Size req).

(** The pipe has nothing more to deliver. *)
Definition exhausted (fh : fileHandle) : Prop := pending (fh_pipe fh) = [].

(** The slice [fileHandle.Read] takes from the buffer of [fh]. *)
Definition read_slice (fh : fileHandle) (req : ReadRequest) : list byte :=
  slice (fh_buffer fh)
        (read_min (Len (fh_buffer fh)) req)
        (read_max (Len (fh_buffer fh)) req).

(** Does serving [r] in state [s] store a size under [name]? *)
Definition publishes (s : Server) (r : request) (name : string) : bool :=
  match r with
  | ReqRead h req =>
      match handles s !! h with
      | Some (Some (HandleTranscode fh)) =>
          String.eqb (fh_name fh) name &&
          match (fileHandle_Read fh (allSizes (globals s)) req).2 with
          | Return (_, Some io_EOF) => true
          | _ => false
          end
      | _ => false
      end
  | _ => false
  end.

(** No request of the run stores a size under [name]. *)
Fixpoint quiet (env : Env) (name : string) (s : Server) (rs : list request) : Prop :=
  match rs with
  | [] => True
  | r :: rs' => publishes s r name = false /\ quiet env name (serve env s r).1 rs'
  end.

(** The entries of a listing that bear the name [name]. *)
Definition named (name : string) (out : list Dirent) : list Dirent :=
  filter (fun e => Dirent_Name e = name) out.

(** What one turn of the listing loop appends for [ent]. *)
Definition entry_out (env : Env) (d : dir) (ent : FileInfo) : list Dirent :=
  (ReadDirAll_step env d (∅, []) ent).2.

(** The name an audio file is listed under. *)
Definition renamed (name : string) : string := Replace1 name (Ext name) ".ogg".

(** ** The earlier variant of the program

    The repository also holds an earlier [main.go] without [allFiles]: the
    listing shows names as they are, [Lookup] opens the joined path,
    [Attr] always makes up the size of an uncached file and [Open] always
    starts the encoder.  [fileHandle.Read] is the same in both. *)

Module Earlier.

(** One turn of the loop of [dir.ReadDirAll]. *)
Definition ReadDirAll_step (out : list Dirent) (ent : FileInfo) : list Dirent :=
  if negb (IsDir (Mode ent)) && negb (IsRegular (Mode ent)) then out
  else
    let typ :=
      if IsDir (Mode ent) then DT_Dir
      else if IsRegular (Mode ent) then DT_File
      else DT_Unknown in
    out ++ [ {| Dirent_Inode := 0; Dirent_Type := typ; Dirent_Name := Name ent |} ].

Definition dir_ReadDirAll (env : Env) (d : dir) : result (list Dirent) :=
  match os_Open env (dir_dir d) with
  | Err e => Err e
  | Ok f =>
      match File_Readdir f with
      | Err e => Err e
      | Ok ents => Ok (fold_left ReadDirAll_step ents [])
      end
  end.

Definition dir_Lookup (env : Env) (d : dir) (name : string) : result Node :=
  match os_Open env (Join env (dir_dir d) name) with
  | Err e => if IsNotExist (Some e) then Err fuse_ENOENT else Err e
  | Ok ford =>
      match File_Stat ford with
      | Err e => Err e
      | Ok stat =>
          if IsDir (Mode stat) then
            Ok (NodeDir {| dir_dir := Join env (dir_dir d) name;
                           dir_encoder := dir_encoder d |})
          else if IsRegular (Mode stat) then
            Ok (NodeFile {| file_name := Join env (dir_dir d) name;
                            file_encoder := dir_encoder d |})
          else Err fuse_ENOENT
      end
  end.

Definition file_Attr (env : Env) (sizes : gmap string Z) (f : file) (a : Attr)
  : Attr * option error :=
  let a := {| Attr_Inode := Attr_Inode a; Attr_Mode := perm_0555; Attr_Size := Attr_Size a |} in
  match sizes !! file_name f with
  | Some realSize => (with_Size a realSize, None)
  | None =>
      match os_Stat env (file_name f) with
      | Err e => (a, Some e)
      | Ok stat => (with_Size a (uint64 (int64 (10 * Size stat))), None)
      end
  end.

Definition file_Open (env : Env) (f : file) : list Command * result Handle :=
  let c := encoder_command f in
  match start env (cmd_name c) (cmd_args c) with
  | Err e => ([c], Err e)
  | Ok ffmpeg =>
      ([c], Ok (HandleTranscode
                 {| fh_name := file_name f;
                    fh_close := wait ffmpeg;
                    fh_pipe := stdout ffmpeg;
                    fh_buffer := [];
                    fh_encoder := file_encoder f |}))
  end.

End Earlier.

(** ** More vocabulary *)

(** All the bytes of the encoder's output that the session has seen or
    will see: the buffer followed by what the pipe still holds. *)
Definition stream (fh : fileHandle) : list byte :=
  fh_buffer fh ++ pending (fh_pipe fh).

(** [Attr] of whichever node the library holds. *)
Definition Node_Attr (env : Env) (g : Globals) (n : Node) (a : Attr)
  : Attr * option error :=
  match n with
  | NodeRoot r => Root_Attr r a
  | NodeDir d => dir_Attr d a
  | NodeFile f => file_Attr env g f a
  end.

(** The write permission bits, octal [0222]. *)
Definition perm_0222 : Z := 146.

(** The entry is a directory or a regular file, so the listing shows it. *)
Definition listed (ent : FileInfo) : bool :=
  IsDir (Mode ent) || IsRegular (Mode ent).

(** The kind a listed entry is shown with. *)
Definition kind_of (ent : FileInfo) : DirentType :=
  if IsDir (Mode ent) then DT_Dir else DT_File.

(** The character [c] does not occur in [s]. *)
Definition without (c : ascii) (s : string) : Prop :=
  ~ In c (list_ascii_of_string s).

(** An inode that opens and reads without failure. *)
Definition healthy (i : Inode) : Prop :=
  open_err i = None /\ read_fault i = None.

(** The classification [isAudio] makes from a sniffed buffer and a path. *)
Definition audio_type (env : Env) (buf : list byte) (path : string) : bool :=
  HasPrefix (DetectContentType env buf) "audio/" ||
  HasPrefix (DetectContentType env buf) "video/" ||
  String.eqb (DetectContentType env buf) "application/ogg" ||
  HasSuffix path ".flac".

(** A session over a pipe that breaks after two bytes. *)
Definition broken_session : fileHandle :=
  {| fh_name := "/music/track.ogg"; fh_close := None;
     fh_pipe := {| pending := [x01; x02]; broken := Some "read |0: file already closed" |};
     fh_buffer := []; fh_encoder := "ogg" |}.

(** A node whose path does not exist, as [Open] needs it to transcode. *)
Definition ghost_file : file :=
  {| file_name := "/music/ghost.ogg"; file_encoder := "ogg" |}.

(** A request as the kernel sends it: offset and size are not negative
    and the end of the range is an [int64]. *)
Definition plain (req : ReadRequest) : Prop :=
  0 <= req_Offset req /\ 0 <= req_Size req /\
  req_Offset req + req_Size req < 2 ^ 63.

(** ** A second sample tree

    [/lib] holds a text file, a subdirectory, a FLAC file too short to
    sniff, a FLAC file long enough, and an MP3 file without extension. *)

Definition text_bytes : list byte := repeat x61 600.

Definition lib_entries : list FileInfo :=
  [ entry "notes.txt" (regular_file text_bytes);
    entry "live" (directory []);
    entry "tiny.flac" (regular_file (repeat x61 10));
    entry "big.flac" (regular_file text_bytes);
    entry "track" (regular_file mp3_bytes) ].

Definition lib_paths : list (string * Inode) :=
  [ ("/lib", directory lib_entries);
    ("/lib/notes.txt", regular_file text_bytes);
    ("/lib/live", directory []);
    ("/lib/tiny.flac", regular_file (repeat x61 10));
    ("/lib/big.flac", regular_file text_bytes);
    ("/lib/track", regular_file mp3_bytes) ].

Definition lib_env : Env :=
  {| path_state := fun p => assoc p lib_paths;
     Join := sample_Join;
     DetectContentType := sample_DetectContentType;
     start := sample_encoder |}.

Definition lib : dir := {| dir_dir := "/lib"; dir_encoder := "ogg" |}.

Definition lib_handle : File :=
  {| file_path := "/lib"; file_inode := directory lib_entries |}.

(** ** A third sample tree, and a second session on one name

    [/docs] holds two text files, a subdirectory and a named pipe: nothing
    [isAudio] accepts.  [rival_session] is another session opened on the
    name of [short_session], over a stream of two bytes. *)

Definition docs_entries : list FileInfo :=
  [ entry "notes.txt" (regular_file text_bytes);
    entry "readme" (regular_file text_bytes);
    entry "drafts" (directory []);
    entry "queue" named_pipe ].

Definition docs_paths : list (string * Inode) :=
  [ ("/docs", directory docs_entries);
    ("/docs/notes.txt", regular_file text_bytes);
    ("/docs/readme", regular_file text_bytes);
    ("/docs/drafts", directory []);
    ("/docs/queue", named_pipe) ].

Definition docs_env : Env :=
  {| path_state := fun p => assoc p docs_paths;
     Join := sample_Join;
     DetectContentType := sample_DetectContentType;
     start := sample_encoder |}.

Definition docs : dir := {| dir_dir := "/docs"; dir_encoder := "ogg" |}.

Definition rival_session : fileHandle :=
  {| fh_name := "/music/track.ogg"; fh_close := None;
     fh_pipe := {| pending := [x0a; x0b]; broken := None |};
     fh_buffer := []; fh_encoder := "ogg" |}.

(** * Properties *)

(** ** Arithmetic and slices *)

Lemma int64_id (z : Z) : - 2 ^ 63 <= z < 2 ^ 63 -> int64 z = z.
Proof.
  intros Hz. unfold int64.
  rewrite Z.mod_small by lia. lia.
Qed.

Lemma Len_nonneg {A} (l : list A) : 0 <= Len l.
Proof. unfold Len. lia. Qed.

Lemma Len_app {A} (l k : list A) : Len (l ++ k) = Len l + Len k.
Proof. unfold Len. rewrite length_app. lia. Qed.

Lemma Len_nil_inv {A} (l : list A) : Len l = 0 -> l = [].
Proof. unfold Len. destruct l; simpl; [done | lia]. Qed.

Lemma slice_Len {A} (b : list A) (lo hi : Z) :
  0 <= lo -> lo <= hi -> hi <= Len b -> Len (slice b lo hi) = hi - lo.
Proof.
  unfold slice, Len. intros H0 H1 H2.
  rewrite length_take, length_drop. lia.
Qed.

Lemma slice_app_l {A} (b ext : list A) (lo hi : Z) :
  0 <= lo -> lo <= hi -> hi <= Len b -> slice (b ++ ext) lo hi = slice b lo hi.
Proof.
  unfold slice, Len. intros H0 H1 H2.
  rewrite drop_app_le by lia.
  rewrite take_app_le; [done |].
  rewrite length_drop. lia.
Qed.

Lemma copy_fits (dst src : list byte) :
  (length src <= length dst)%nat ->
  copy dst src = (src ++ drop (length src) dst, Len src).
Proof.
  intros H. unfold copy, Len.
  rewrite Nat.min_r by lia. by rewrite firstn_all.
Qed.

Lemma make_length (n : Z) : 0 <= n -> Len (make n) = n.
Proof. intros H. unfold make, Len. rewrite repeat_length. lia. Qed.

(** ** The fill step *)

Lemma CopyN_grows (buf : list byte) (p : Pipe) (n : Z) :
  exists got, (CopyN buf p n).1.1 = buf ++ got.
Proof.
  unfold CopyN. exists (take (Z.to_nat n) (pending p)).
  by destruct (_ <? _).
Qed.

Lemma fill_name (fh : fileHandle) (req : ReadRequest) :
  fh_name (fill fh req).1 = fh_name fh.
Proof.
  unfold fill. destruct (_ <? _); [| done].
  by destruct (CopyN _ _ _) as [[buf p] e].
Qed.

Lemma fill_grows (fh : fileHandle) (req : ReadRequest) :
  exists got, fh_buffer (fill fh req).1 = fh_buffer fh ++ got.
Proof.
  unfold fill. destruct (_ <? _).
  - destruct (CopyN_grows (fh_buffer fh) (fh_pipe fh)
                (int64 (req_end req - Len (fh_buffer fh)))) as [got Hgot].
    exists got. destruct (CopyN _ _ _) as [[buf p] e]. simpl in *. done.
  - exists []. by rewrite app_nil_r.
Qed.

Lemma deliver_handle (fh : fileHandle) (sizes : gmap string Z) (req : ReadRequest) :
  (deliver fh sizes req).1.1 = fh.
Proof.
  unfold deliver.
  destruct (req_Size req <? 0); [done |].
  destruct (negb _); [done |].
  destruct (copy _ _) as [data n].
  by destruct (n =? 0).
Qed.

Lemma Read_handle (fh : fileHandle) (sizes : gmap string Z) (req : ReadRequest) :
  (fileHandle_Read fh sizes req).1.1 = (fill fh req).1.
Proof.
  unfold fileHandle_Read. destruct (fill fh req) as [fh1 e]. simpl.
  destruct (fatal e); [done |]. apply deliver_handle.
Qed.

Lemma int64_bounds (z : Z) : int64_range (int64 z).
Proof.
  unfold int64_range, int64.
  pose proof (Z.mod_pos_bound (z + 2 ^ 63) (2 ^ 64) ltac:(lia)). lia.
Qed.

Lemma int64_wrap_high (z : Z) :
  2 ^ 63 <= z < 2 ^ 63 + 2 ^ 64 -> int64 z = z - 2 ^ 64.
Proof.
  intros Hz. unfold int64.
  replace (z + 2 ^ 63) with ((z + 2 ^ 63 - 2 ^ 64) + 1 * 2 ^ 64) by lia.
  rewrite Z_mod_plus_full. rewrite Z.mod_small by lia. lia.
Qed.

Lemma req_end_bounds (req : ReadRequest) : int64_range (req_end req).
Proof. apply int64_bounds. Qed.

(** With a request of machine integers and a size that is not negative, the
    end of the range is either past the offset or wrapped below zero. *)
Lemma req_end_cases (req : ReadRequest) :
  well_typed req -> 0 <= req_Size req ->
  req_end req = req_Offset req + req_Size req \/ req_end req < 0.
Proof.
  intros [Ho Hs] Hpos. unfold req_end, int64_range in *.
  rewrite (int64_id (req_Size req)) by lia.
  destruct (Z_lt_dec (req_Offset req + req_Size req) (2 ^ 63)) as [Hlt | Hge].
  - left. apply int64_id. lia.
  - right. rewrite int64_wrap_high by lia. lia.
Qed.

Lemma take_short {A} (n : nat) (l : list A) :
  (length (take n l) < n)%nat -> drop n l = [].
Proof.
  rewrite length_take. intros H. apply drop_ge. lia.
Qed.

Lemma fill_exhausted (fh : fileHandle) (req : ReadRequest) :
  exhausted fh -> (fill fh req).1 = fh.
Proof.
  unfold exhausted, fill. intros Hp.
  destruct (_ <? _); [| done].
  unfold CopyN. rewrite Hp, take_nil, drop_nil, app_nil_r.
  destruct fh as [nm cl [pd br] buf enc]. simpl in *. subst pd.
  by destruct (_ <? _).
Qed.

Lemma Read_exhausted (fh : fileHandle) (sizes : gmap string Z) (req : ReadRequest) :
  exhausted fh -> (fileHandle_Read fh sizes req).1.1 = fh.
Proof. intros H. rewrite Read_handle. by apply fill_exhausted. Qed.

Lemma read_all_exhausted (reqs : list ReadRequest) (fh : fileHandle)
    (sizes : gmap string Z) :
  exhausted fh -> (read_all fh sizes reqs).1 = fh.
Proof.
  revert fh sizes. induction reqs as [| req reqs IH]; intros fh sizes Hx; [done |].
  simpl. pose proof (Read_exhausted fh sizes req Hx) as Hfh.
  destruct (fileHandle_Read fh sizes req) as [[fh' sizes'] out]. simpl in Hfh.
  subst fh'. by apply IH.
Qed.

Lemma Read_grows (fh : fileHandle) (sizes : gmap string Z) (req : ReadRequest) :
  fh_buffer fh `prefix_of` fh_buffer (fileHandle_Read fh sizes req).1.1.
Proof.
  rewrite Read_handle. destruct (fill_grows fh req) as [got Hgot].
  exists got. done.
Qed.

Lemma read_all_grows (reqs : list ReadRequest) (fh : fileHandle)
    (sizes : gmap string Z) :
  fh_buffer fh `prefix_of` fh_buffer (read_all fh sizes reqs).1.
Proof.
  revert fh sizes. induction reqs as [| req reqs IH]; intros fh sizes; [done |].
  simpl. pose proof (Read_grows fh sizes req) as Hstep.
  destruct (fileHandle_Read fh sizes req) as [[fh' sizes'] out]. simpl in Hstep.
  etrans; [exact Hstep | apply IH].
Qed.

(** What the fill step leaves behind: a drained pipe, or a buffer that
    reaches the end of the requested range and no error. *)
Lemma fill_result (fh : fileHandle) (req : ReadRequest) :
  (exhausted (fill fh req).1 /\ fill (fill fh req).1 req = fill fh req) \/
  (req_end req <= Len (fh_buffer (fill fh req).1) /\ (fill fh req).2 = None).
Proof.
  unfold fill at 1 3 4 5 6.
  destruct (Len (fh_buffer fh) <? req_end req) eqn:Hlt.
  - apply Z.ltb_lt in Hlt.
    pose proof (req_end_bounds req) as Hb. pose proof (Len_nonneg (fh_buffer fh)) as Hn.
    unfold int64_range in Hb.
    rewrite int64_id by (unfold int64_range; lia).
    remember (req_end req - Len (fh_buffer fh)) as n eqn:Hndef.
    unfold CopyN.
    destruct (Len (take (Z.to_nat n) (pending (fh_pipe fh))) <? n) eqn:Hshort.
    + left. apply Z.ltb_lt in Hshort. unfold Len in Hshort.
      assert (Hdrop : drop (Z.to_nat n) (pending (fh_pipe fh)) = []).
      { apply take_short. lia. }
      split; [exact Hdrop |].
      unfold fill. simpl. rewrite Hdrop.
      assert (Hlt' : (Len (fh_buffer fh ++ take (Z.to_nat n) (pending (fh_pipe fh)))
                      <? req_end req) = true).
      { apply Z.ltb_lt. rewrite Len_app. unfold Len in *. lia. }
      rewrite Hlt'. unfold CopyN. simpl.
      rewrite take_nil, drop_nil, app_nil_r.
      assert (Hn' : (Len (@nil byte) <?
                int64 (req_end req -
                       Len (fh_buffer fh ++ take (Z.to_nat n) (pending (fh_pipe fh)))))
                = true).
      { apply Z.ltb_lt. apply Z.ltb_lt in Hlt'.
        rewrite int64_id; [unfold Len at 1; simpl; lia |].
        pose proof (Len_nonneg (fh_buffer fh ++ take (Z.to_nat n) (pending (fh_pipe fh)))).
        lia. }
      rewrite Hn'. done.
    + right. apply Z.ltb_ge in Hshort. simpl. split; [| done].
      rewrite Len_app. lia.
  - right. apply Z.ltb_ge in Hlt. simpl. done.
Qed.

(** ** Delivery from the buffer *)

Lemma deliver_outcome_sizes (fh : fileHandle) (s1 s2 : gmap string Z) (req : ReadRequest) :
  (deliver fh s1 req).2 = (deliver fh s2 req).2.
Proof.
  unfold deliver.
  destruct (req_Size req <? 0); [done |].
  destruct (negb _); [done |].
  destruct (copy _ _) as [data n].
  by destruct (n =? 0).
Qed.

Lemma Read_outcome_sizes (fh : fileHandle) (s1 s2 : gmap string Z) (req : ReadRequest) :
  (fileHandle_Read fh s1 req).2 = (fileHandle_Read fh s2 req).2.
Proof.
  unfold fileHandle_Read. destruct (fill fh req) as [fh1 e].
  destruct (fatal e); [done |]. apply deliver_outcome_sizes.
Qed.

(** The bounds of a delivery that did not panic. *)
Lemma deliver_bounds (fh : fileHandle) (sizes : gmap string Z) (req : ReadRequest)
    (r : list byte * option error) :
  (deliver fh sizes req).2 = Return r ->
  0 <= req_Size req /\
  0 <= read_min (Len (fh_buffer fh)) req /\
  read_min (Len (fh_buffer fh)) req <= read_max (Len (fh_buffer fh)) req /\
  read_max (Len (fh_buffer fh)) req <= Len (fh_buffer fh).
Proof.
  unfold deliver.
  destruct (Z.ltb_spec (req_Size req) 0) as [Hneg | Hpos]; [done |].
  destruct (0 <=? read_min _ _) eqn:H0; simpl; [| done].
  destruct (read_min _ _ <=? read_max _ _) eqn:H1; simpl; [| done].
  destruct (read_max _ _ <=? Len _) eqn:H2; simpl; [| done].
  intros _. apply Z.leb_le in H0, H1, H2. lia.
Qed.

(** Once the buffer reaches the end of a range, growing it further does not
    change what a read of that range delivers. *)
Lemma deliver_covered (fh1 fh2 : fileHandle) (s1 s2 : gmap string Z)
    (req : ReadRequest) (r : list byte * option error) :
  well_typed req ->
  req_end req <= Len (fh_buffer fh1) ->
  fh_buffer fh1 `prefix_of` fh_buffer fh2 ->
  (deliver fh1 s1 req).2 = Return r ->
  (deliver fh2 s2 req).2 = Return r.
Proof.
  intros Hwt Hcov [ext Hext] Hret.
  pose proof (deliver_bounds _ _ _ _ Hret) as (Hsz & Hlo & Hmid & Hhi).
  pose proof (Len_nonneg (fh_buffer fh1)) as Hn1.
  pose proof (Len_nonneg ext) as Hne.
  assert (Hmax1 : read_max (Len (fh_buffer fh1)) req = req_end req).
  { unfold read_max. rewrite Z.gtb_ltb.
    destruct (Z.ltb_spec (Len (fh_buffer fh1)) (req_end req)); [lia | done]. }
  assert (Hmin1 : read_min (Len (fh_buffer fh1)) req = req_Offset req).
  { unfold read_min in *. rewrite Z.gtb_ltb in *.
    destruct (Z.ltb_spec (Len (fh_buffer fh1)) (req_Offset req)) as [Hgt | Hle]; [| done].
    destruct (req_end_cases req Hwt Hsz); lia. }
  assert (Hmax2 : read_max (Len (fh_buffer fh2)) req = req_end req).
  { unfold read_max. rewrite Z.gtb_ltb, Hext, Len_app.
    destruct (Z.ltb_spec (Len (fh_buffer fh1) + Len ext) (req_end req)); [lia | done]. }
  assert (Hmin2 : read_min (Len (fh_buffer fh2)) req = req_Offset req).
  { unfold read_min. rewrite Z.gtb_ltb, Hext, Len_app.
    destruct (Z.ltb_spec (Len (fh_buffer fh1) + Len ext) (req_Offset req)); [| done].
    rewrite Hmin1, Hmax1 in *. lia. }
  revert Hret. unfold deliver.
  rewrite Hmin1, Hmax1, Hmin2, Hmax2. rewrite Hmin1, Hmax1 in *.
  destruct (Z.ltb_spec (req_Size req) 0) as [Hneg | _]; [lia |].
  assert (Hb1 : (0 <=? req_Offset req) && (req_Offset req <=? req_end req)
                && (req_end req <=? Len (fh_buffer fh1)) = true).
  { rewrite !andb_true_iff, !Z.leb_le. lia. }
  assert (Hb2 : (0 <=? req_Offset req) && (req_Offset req <=? req_end req)
                && (req_end req <=? Len (fh_buffer fh2)) = true).
  { rewrite !andb_true_iff, !Z.leb_le, Hext, Len_app. lia. }
  rewrite Hb1, Hb2. cbn [negb].
  rewrite Hext.
  rewrite (slice_app_l (fh_buffer fh1) ext) by lia.
  destruct (copy _ _) as [data n].
  by destruct (n =? 0).
Qed.

(** A read that finds the buffer long enough does not touch the pipe. *)
Lemma fill_covered (fh : fileHandle) (req : ReadRequest) :
  req_end req <= Len (fh_buffer fh) -> fill fh req = (fh, None).
Proof.
  intros H. unfold fill.
  destruct (Z.ltb_spec (Len (fh_buffer fh)) (req_end req)); [lia | done].
Qed.

Lemma Read_as_deliver (fh : fileHandle) (sizes : gmap string Z) (req : ReadRequest) :
  (fill fh req).2 = None ->
  (fileHandle_Read fh sizes req).2 = (deliver (fill fh req).1 sizes req).2.
Proof.
  unfold fileHandle_Read. destruct (fill fh req) as [fh1 e]. simpl.
  by intros ->.
Qed.

Lemma Read_after_fill (fh : fileHandle) (sizes : gmap string Z) (req : ReadRequest) :
  fill (fill fh req).1 req = fill fh req ->
  (fileHandle_Read (fill fh req).1 sizes req).2 = (fileHandle_Read fh sizes req).2.
Proof.
  intros H. unfold fileHandle_Read. rewrite H.
  by destruct (fill fh req) as [fh1 e].
Qed.

(** C9. A transcode session's buffer only ever grows by appending: after a
    read, and after any further run of reads at arbitrary offsets and
    lengths, the earlier buffer is a prefix of the later one; and a read
    that returned is answered with the very same bytes and error when it
    is repeated after that run. *)
Theorem session_reads_stable (fh : fileHandle) (sizes : gmap string Z)
    (req : ReadRequest) (reqs : list ReadRequest) :
  well_typed req ->
  let first := fileHandle_Read fh sizes req in
  let later := read_all first.1.1 first.1.2 reqs in
  fh_buffer fh `prefix_of` fh_buffer first.1.1 /\
  fh_buffer first.1.1 `prefix_of` fh_buffer later.1 /\
  (forall r, first.2 = Return r ->
             (fileHandle_Read later.1 later.2 req).2 = Return r).
Proof.
  intros Hwt first later.
  split; [apply Read_grows |].
  split; [apply read_all_grows |].
  intros r Hr.
  assert (Hfh : first.1.1 = (fill fh req).1) by apply Read_handle.
  destruct (fill_result fh req) as [[Hx Hidem] | [Hcov Hnone]].
  - assert (Hsame : later.1 = first.1.1).
    { apply read_all_exhausted. by rewrite Hfh. }
    rewrite Hsame, Hfh.
    rewrite (Read_outcome_sizes _ later.2 sizes).
    by rewrite Read_after_fill.
  - pose proof (read_all_grows reqs first.1.1 first.1.2) as Hgrow.
    fold later in Hgrow.
    unfold first in Hr. rewrite (Read_as_deliver _ _ _ Hnone) in Hr.
    rewrite <- Hfh in Hr, Hcov.
    assert (Hcov2 : req_end req <= Len (fh_buffer later.1)).
    { destruct Hgrow as [ext Hext]. rewrite Hext, Len_app.
      pose proof (Len_nonneg ext). lia. }
    rewrite Read_as_deliver; rewrite (fill_covered _ _ Hcov2); [| done].
    simpl. exact (deliver_covered _ _ _ _ _ _ Hwt Hcov Hgrow Hr).
Qed.

Lemma session_reads_stable_witness :
  well_typed (read_request 1 2) /\
  let first := fileHandle_Read short_session ∅ (read_request 1 2) in
  let later := read_all first.1.1 first.1.2 [read_request 2 9; read_request 0 1] in
  first.2 = Return ([x02; x03], None) /\
  (fileHandle_Read later.1 later.2 (read_request 1 2)).2 = Return ([x02; x03], None).
Proof.
  assert (Hwt : well_typed (read_request 1 2)).
  { unfold well_typed, int64_range. simpl. lia. }
  split; [exact Hwt |].
  intros first later.
  assert (Hfirst : first.2 = Return ([x02; x03], None)) by reflexivity.
  split; [exact Hfirst |].
  exact (proj2 (proj2 (session_reads_stable short_session ∅ (read_request 1 2)
                         [read_request 2 9; read_request 0 1] Hwt)) _ Hfirst).
Defined.

(** ** What a transcode read hands back *)

Lemma drop_repeat {A} (x : A) (k n : nat) : drop k (repeat x n) = repeat x (n - k).
Proof.
  revert k. induction n as [| n IH]; intros k.
  - simpl. by rewrite drop_nil.
  - destruct k as [| k]; [done |]. simpl. apply IH.
Qed.

(** Case analysis on the two comparisons behind [read_min] and [read_max],
    closed by linear arithmetic. *)
Ltac split_bounds buf req Hwt Hsz :=
  unfold read_min, read_max in *; rewrite !Z.gtb_ltb in *;
  destruct (Z.ltb_spec (Len buf) (req_Offset req));
  destruct (Z.ltb_spec (Len buf) (req_end req));
  destruct (req_end_cases req Hwt Hsz); lia.

(** The slice never holds more bytes than were asked for. *)
Lemma slice_fits (fh : fileHandle) (sizes : gmap string Z) (req : ReadRequest)
    (r : list byte * option error) :
  well_typed req ->
  (deliver fh sizes req).2 = Return r ->
  Len (read_slice fh req) <= req_Size req.
Proof.
  intros Hwt Hret.
  pose proof (deliver_bounds _ _ _ _ Hret) as (Hsz & Hlo & Hmid & Hhi).
  unfold read_slice. rewrite slice_Len by lia.
  pose proof (Len_nonneg (fh_buffer fh)) as Hn.
  split_bounds (fh_buffer fh) req Hwt Hsz.
Qed.

(** [resp.Data] keeps the length it was made with: the slice is followed by
    the zero bytes [copy] did not overwrite. *)
Lemma deliver_pads (fh : fileHandle) (sizes : gmap string Z) (req : ReadRequest)
    (data : list byte) (e : option error) :
  well_typed req ->
  (deliver fh sizes req).2 = Return (data, e) ->
  data = read_slice fh req ++
         repeat x00 (Z.to_nat (req_Size req - Len (read_slice fh req))) /\
  Len data = req_Size req /\
  (e = Some io_EOF <-> read_slice fh req = []).
Proof.
  intros Hwt Hret.
  pose proof (slice_fits _ _ _ _ Hwt Hret) as Hfit.
  pose proof (deliver_bounds _ _ _ _ Hret) as (Hsz & Hlo & Hmid & Hhi).
  revert Hret. unfold deliver.
  destruct (Z.ltb_spec (req_Size req) 0) as [Hneg | _]; [lia |].
  destruct (negb _); [done |].
  fold (read_slice fh req).
  rewrite copy_fits.
  2:{ pose proof (make_length (req_Size req) Hsz) as Hm. unfold Len in *. lia. }
  assert (Hdata : read_slice fh req ++ drop (length (read_slice fh req)) (make (req_Size req))
                  = read_slice fh req ++
                    repeat x00 (Z.to_nat (req_Size req - Len (read_slice fh req)))).
  { f_equal. unfold make. rewrite drop_repeat. f_equal. unfold Len. lia. }
  assert (Hlen : Len (read_slice fh req ++
                      repeat x00 (Z.to_nat (req_Size req - Len (read_slice fh req))))
                 = req_Size req).
  { rewrite Len_app. unfold Len at 2. rewrite repeat_length. lia. }
  rewrite Hdata.
  destruct (Z.eqb_spec (Len (read_slice fh req)) 0) as [Hz | Hnz]; simpl;
    intros [= <- <-]; (split; [done |]); (split; [done |]).
  - split; [intros _; by apply Len_nil_inv | done].
  - split; [done |]. intros Hnil. rewrite Hnil in Hnz. done.
Qed.

(** C1. On a session whose stream holds three bytes, a read of five bytes
    at offset zero finds the slice [buffer[0:3]] but hands back five bytes:
    the slice followed by two zero bytes. *)
Theorem short_stream_read_is_padded :
  let '(fh', _, out) := fileHandle_Read short_session ∅ (read_request 0 5) in
  fh_buffer fh' = [x01; x02; x03] /\
  read_slice fh' (read_request 0 5) = [x01; x02; x03] /\
  out = Return ([x01; x02; x03; x00; x00], None).
Proof. vm_compute. repeat split. Qed.

(** ** End of stream and the size cache *)

Lemma fatal_not_EOF (e : option error) (e' : error) :
  fatal e = Some e' -> e' <> io_EOF.
Proof.
  destruct e as [[] |]; simpl; intros [= <-]; done.
Qed.

(** [allSizes] after a read: one entry stored when the read reports the end
    of the stream, nothing changed otherwise. *)
Lemma Read_sizes (fh : fileHandle) (sizes : gmap string Z) (req : ReadRequest) :
  (fileHandle_Read fh sizes req).1.2 =
  match (fileHandle_Read fh sizes req).2 with
  | Return (_, Some io_EOF) =>
      <[fh_name fh := uint64 (Len (fh_buffer (fill fh req).1))]> sizes
  | _ => sizes
  end.
Proof.
  unfold fileHandle_Read.
  pose proof (fill_name fh req) as Hname.
  destruct (fill fh req) as [fh1 e]. simpl in *.
  destruct (fatal e) as [e' |] eqn:Hf.
  - simpl. pose proof (fatal_not_EOF _ _ Hf). by destruct e'.
  - unfold deliver.
    destruct (req_Size req <? 0); [done |].
    destruct (negb _); [done |].
    destruct (copy _ _) as [data n].
    destruct (n =? 0); simpl; [by rewrite Hname | done].
Qed.

Lemma file_Attr_cached (env : Env) (g : Globals) (f : file) (a : Attr) (v : Z) :
  allSizes g !! file_name f = Some v ->
  file_Attr env g f a =
  ({| Attr_Inode := Attr_Inode a; Attr_Mode := perm_0555; Attr_Size := v |}, None).
Proof. intros H. unfold file_Attr. by rewrite H. Qed.

(** Serving a request never removes a size entry. *)
Lemma serve_keeps_entry (env : Env) (s : Server) (r : request) (k : string) :
  is_Some (allSizes (globals s) !! k) ->
  is_Some (allSizes (globals (serve env s r).1) !! k).
Proof.
  intros Hk. destruct r as [d | d name | f | f | h req | h]; simpl.
  - by destruct (dir_ReadDirAll _ _ _) as [files out].
  - done.
  - by destruct (file_Attr _ _ _ _).
  - by destruct (file_Open env f) as [started [hd | e]].
  - destruct (handles s !! h) as [[[fh | nf] |] |]; try done.
    pose proof (Read_sizes fh (allSizes (globals s)) req) as Hs.
    destruct (fileHandle_Read _ _ _) as [[fh' sizes'] out]. simpl in *.
    subst sizes'. destruct out as [[data [[] |]] | msg]; try done.
    destruct (decide (fh_name fh = k)) as [-> | Hne].
    + rewrite lookup_insert_eq. eauto.
    + by rewrite lookup_insert_ne.
  - by destruct (handles s !! h) as [[[fh | nf] |] |].
Qed.

(** Serving a request that does not publish under [k] leaves the entry. *)
Lemma serve_quiet_entry (env : Env) (s : Server) (r : request) (k : string) :
  publishes s r k = false ->
  allSizes (globals (serve env s r).1) !! k = allSizes (globals s) !! k.
Proof.
  intros Hq. destruct r as [d | d name | f | f | h req | h]; simpl in *.
  - by destruct (dir_ReadDirAll _ _ _) as [files out].
  - done.
  - by destruct (file_Attr _ _ _ _).
  - by destruct (file_Open env f) as [started [hd | e]].
  - destruct (handles s !! h) as [[[fh | nf] |] |]; try done.
    pose proof (Read_sizes fh (allSizes (globals s)) req) as Hs.
    destruct (fileHandle_Read _ _ _) as [[fh' sizes'] out]. simpl in *.
    subst sizes'. destruct out as [[data [[] |]] | msg]; try done.
    rewrite andb_true_r in Hq. apply String.eqb_neq in Hq.
    by rewrite lookup_insert_ne.
  - by destruct (handles s !! h) as [[[fh | nf] |] |].
Qed.

Lemma serve_all_keeps_entry (env : Env) (rs : list request) (s : Server) (k : string) :
  is_Some (allSizes (globals s) !! k) ->
  is_Some (allSizes (globals (serve_all env s rs)) !! k).
Proof.
  revert s. induction rs as [| r rs IH]; intros s Hk; [done |].
  simpl. apply IH. by apply serve_keeps_entry.
Qed.

Lemma serve_all_quiet_entry (env : Env) (rs : list request) (s : Server) (k : string) :
  quiet env k s rs ->
  allSizes (globals (serve_all env s rs)) !! k = allSizes (globals s) !! k.
Proof.
  revert s. induction rs as [| r rs IH]; intros s Hq; [done |].
  destruct Hq as [Hr Hrest]. simpl.
  rewrite IH by done. by apply serve_quiet_entry.
Qed.

Lemma Read_deliver (fh : fileHandle) (sizes : gmap string Z) (req : ReadRequest) :
  fatal (fill fh req).2 = None ->
  fileHandle_Read fh sizes req = deliver (fill fh req).1 sizes req.
Proof.
  unfold fileHandle_Read. destruct (fill fh req) as [fh1 e]. simpl.
  by intros ->.
Qed.

Lemma Read_fatal (fh : fileHandle) (sizes : gmap string Z) (req : ReadRequest)
    (e' : error) :
  fatal (fill fh req).2 = Some e' ->
  fileHandle_Read fh sizes req = ((fill fh req).1, sizes, Return ([], Some e')).
Proof.
  unfold fileHandle_Read. destruct (fill fh req) as [fh1 e]. simpl.
  by intros ->.
Qed.

(** An empty slice for a request of at least one byte means the stream
    ended at or before the offset. *)
Lemma empty_slice_ended (fh : fileHandle) (sizes : gmap string Z) (req : ReadRequest)
    (r : list byte * option error) :
  well_typed req ->
  (deliver (fill fh req).1 sizes req).2 = Return r ->
  read_slice (fill fh req).1 req = [] ->
  0 < req_Size req ->
  exhausted (fill fh req).1 /\ Len (fh_buffer (fill fh req).1) <= req_Offset req.
Proof.
  intros Hwt Hret Hnil Hpos.
  pose proof (deliver_bounds _ _ _ _ Hret) as (Hsz & Hlo & Hmid & Hhi).
  assert (Heq : read_max (Len (fh_buffer (fill fh req).1)) req
                - read_min (Len (fh_buffer (fill fh req).1)) req = 0).
  { rewrite <- (slice_Len (fh_buffer (fill fh req).1)) by lia.
    fold (read_slice (fill fh req).1 req). by rewrite Hnil. }
  pose proof (Len_nonneg (fh_buffer (fill fh req).1)) as Hn.
  assert (Hshort : Len (fh_buffer (fill fh req).1) < req_end req /\
                   Len (fh_buffer (fill fh req).1) <= req_Offset req).
  { split_bounds (fh_buffer (fill fh req).1) req Hwt Hsz. }
  split; [| lia].
  destruct (fill_result fh req) as [[Hx _] | [Hcov _]]; [done | lia].
Qed.

(** C2, as amended.  A transcode read reports end-of-stream exactly when
    it got as far as computing the slice and the slice is empty.  Such a
    read stores the buffer length in [allSizes] under the session's name;
    for a request of at least one byte the stream had then ended at or
    before the offset.  From then on, after any run of requests, [file.Attr]
    for that name answers with the size cached for it, never a made-up one;
    that size is the stored length as long as no later read has published
    again under the same name. *)
Theorem end_of_stream_read (fh fh1 : fileHandle) (sizes sizes1 : gmap string Z)
    (req : ReadRequest) (data : list byte) (e : option error) :
  well_typed req ->
  fileHandle_Read fh sizes req = (fh1, sizes1, Return (data, e)) ->
  (e = Some io_EOF <-> fatal (fill fh req).2 = None /\ read_slice fh1 req = []) /\
  (e = Some io_EOF ->
   sizes1 = <[fh_name fh := uint64 (Len (fh_buffer fh1))]> sizes /\
   (0 < req_Size req -> exhausted fh1 /\ Len (fh_buffer fh1) <= req_Offset req) /\
   forall (env : Env) (s : Server) (rs : list request) (f : file) (a : Attr),
     allSizes (globals s) = sizes1 ->
     file_name f = fh_name fh ->
     exists v,
       allSizes (globals (serve_all env s rs)) !! fh_name fh = Some v /\
       file_Attr env (globals (serve_all env s rs)) f a =
         ({| Attr_Inode := Attr_Inode a; Attr_Mode := perm_0555; Attr_Size := v |}, None) /\
       (quiet env (fh_name fh) s rs -> v = uint64 (Len (fh_buffer fh1)))).
Proof.
  intros Hwt Hread.
  assert (Hfh : fh1 = (fill fh req).1).
  { by rewrite <- Read_handle with (sizes := sizes), Hread. }
  destruct (fatal (fill fh req).2) as [e' |] eqn:Hf.
  - rewrite (Read_fatal _ _ _ _ Hf) in Hread.
    injection Hread as _ _ _ He. subst e.
    pose proof (fatal_not_EOF _ _ Hf) as Hne.
    split; [split; [intros [= ?]; done | intros [[=] _]] |].
    intros [= ?]. done.
  - assert (Hdel : (deliver (fill fh req).1 sizes req).2 = Return (data, e)).
    { by rewrite <- Read_deliver, Hread. }
    destruct (deliver_pads _ _ _ _ _ Hwt Hdel) as (_ & _ & Hiff).
    rewrite <- Hfh in Hiff.
    split; [split; [intros He; split; [done | by apply Hiff] | intros [_ Hnil]; by apply Hiff] |].
    intros He.
    assert (Hsizes : sizes1 = <[fh_name fh := uint64 (Len (fh_buffer fh1))]> sizes).
    { pose proof (Read_sizes fh sizes req) as Hs. rewrite Hread in Hs. simpl in Hs.
      rewrite He in Hs. by rewrite Hfh. }
    split; [exact Hsizes |].
    split.
    { intros Hpos. rewrite Hfh.
      apply (empty_slice_ended fh sizes req (data, e)); try done.
      rewrite <- Hfh. by apply Hiff. }
    intros env s rs f a Hs Hname.
    assert (Hin : allSizes (globals s) !! fh_name fh = Some (uint64 (Len (fh_buffer fh1)))).
    { rewrite Hs, Hsizes. apply lookup_insert_eq. }
    destruct (serve_all_keeps_entry env rs s (fh_name fh)) as [v Hv]; [by eexists |].
    exists v. split; [exact Hv |].
    split; [apply file_Attr_cached; by rewrite Hname |].
    intros Hq. rewrite (serve_all_quiet_entry _ _ _ _ Hq), Hin in Hv. by injection Hv.
Qed.

Lemma end_of_stream_read_witness :
  well_typed (read_request 3 4) /\
  let res := fileHandle_Read short_session ∅ (read_request 3 4) in
  res.2 = Return (make 4, Some io_EOF) /\
  res.1.2 !! "/music/track.ogg" = Some 3 /\
  exhausted res.1.1.
Proof.
  assert (Hwt : well_typed (read_request 3 4)).
  { unfold well_typed, int64_range. simpl. lia. }
  split; [exact Hwt |].
  intros res.
  assert (Hres : res = (res.1.1, res.1.2, Return (make 4, Some io_EOF))) by reflexivity.
  destruct (end_of_stream_read _ _ _ _ _ _ _ Hwt Hres) as [_ Hpub].
  destruct (Hpub eq_refl) as (Hsizes & Hended & _).
  split; [reflexivity |].
  split; [rewrite Hsizes; apply lookup_insert_eq |].
  apply Hended. simpl. lia.
Defined.

(** C2 as first stated does not hold.  On the three-byte session a read of
    zero bytes at offset 1 finds an empty slice, reports end-of-stream and
    stores 1, while the pipe still holds two bytes.  A later read at the
    end of the stream stores 3, and [file.Attr] then answers 3, not the 1
    stored before.  A second session on the same name, over a stream of two
    bytes, stores 2 at its own end, and [file.Attr] then answers 2. *)
Lemma end_of_stream_not_final :
  let track := {| file_name := "/music/track.ogg"; file_encoder := "ogg" |} in
  let attr_size := fun sizes =>
    Attr_Size (file_Attr sample_env {| allSizes := sizes; allFiles := ∅ |}
                         track zero_Attr).1 in
  let r1 := fileHandle_Read short_session ∅ (read_request 1 0) in
  let r2 := fileHandle_Read r1.1.1 r1.1.2 (read_request 3 4) in
  let r3 := fileHandle_Read rival_session r2.1.2 (read_request 2 1) in
  (r1.2 = Return ([], Some io_EOF) /\
   read_slice r1.1.1 (read_request 1 0) = [] /\
   fh_buffer r1.1.1 = [x01] /\
   pending (fh_pipe r1.1.1) = [x02; x03] /\
   ~ exhausted r1.1.1 /\
   attr_size r1.1.2 = 1) /\
  (r2.2 = Return (make 4, Some io_EOF) /\
   fh_buffer r2.1.1 = [x01; x02; x03] /\
   attr_size r2.1.2 = 3 /\
   attr_size r2.1.2 <> attr_size r1.1.2) /\
  (r3.2 = Return (make 1, Some io_EOF) /\
   fh_buffer r3.1.1 = [x0a; x0b] /\
   attr_size r3.1.2 = 2 /\
   attr_size r3.1.2 <> attr_size r2.1.2).
Proof.
  intros track attr_size r1 r2 r3.
  assert (H1 : attr_size r1.1.2 = 1) by reflexivity.
  assert (H2 : attr_size r2.1.2 = 3) by reflexivity.
  assert (H3 : attr_size r3.1.2 = 2) by reflexivity.
  split; [| split].
  - split; [reflexivity |]. split; [reflexivity |]. split; [reflexivity |].
    split; [reflexivity |]. split; [| exact H1].
    unfold exhausted. intros Hx.
    assert (Hp : pending (fh_pipe r1.1.1) = [x02; x03]) by reflexivity.
    rewrite Hp in Hx. discriminate.
  - split; [reflexivity |]. split; [reflexivity |]. split; [exact H2 |].
    rewrite H1, H2. lia.
  - split; [reflexivity |]. split; [reflexivity |]. split; [exact H3 |].
    rewrite H2, H3. lia.
Qed.

(** ** Lookup *)

(** C6. [dir.Lookup] joins the directory's path with the name.  When
    something exists at the joined path, [allFiles] plays no part and the
    joined path decides the answer: a directory node or a file node named
    after the joined path, [fuse.ENOENT] for anything else, the error of
    [os.Open] when it does not open.  When nothing exists at the joined
    path and [allFiles] maps it, the mapped path decides the answer in the
    same way, and a node is named after the mapped path.  When nothing
    exists at the joined path and [allFiles] has no entry for it, or the
    mapped path does not exist either, the answer is [fuse.ENOENT]. *)
Theorem Lookup_resolution (env : Env) (files : gmap string string) (d : dir)
    (name : string) :
  let joined := Join env (dir_dir d) name in
  (forall i,
     path_state env joined = Present i -> open_err i = None ->
     dir_Lookup env files d name =
     match st_mode i with
     | ModeDir => Ok (NodeDir {| dir_dir := joined; dir_encoder := dir_encoder d |})
     | ModeRegular => Ok (NodeFile {| file_name := joined; file_encoder := dir_encoder d |})
     | ModeIrregular => Err fuse_ENOENT
     end) /\
  (forall mapped i,
     os_Stat env joined = Err os_ErrNotExist ->
     files !! joined = Some mapped ->
     path_state env mapped = Present i -> open_err i = None ->
     dir_Lookup env files d name =
     match st_mode i with
     | ModeDir => Ok (NodeDir {| dir_dir := mapped; dir_encoder := dir_encoder d |})
     | ModeRegular => Ok (NodeFile {| file_name := mapped; file_encoder := dir_encoder d |})
     | ModeIrregular => Err fuse_ENOENT
     end) /\
  (forall mapped,
     os_Stat env joined = Err os_ErrNotExist ->
     files !! joined = Some mapped ->
     path_state env mapped = Absent ->
     dir_Lookup env files d name = Err fuse_ENOENT) /\
  (os_Stat env joined = Err os_ErrNotExist ->
   files !! joined = None ->
   dir_Lookup env files d name = Err fuse_ENOENT) /\
  (forall msg,
     path_state env joined = Unreachable msg ->
     dir_Lookup env files d name = Err (other_error msg)) /\
  (forall i msg,
     path_state env joined = Present i -> open_err i = Some msg ->
     dir_Lookup env files d name = Err (other_error msg)).
Proof.
  intros joined. unfold dir_Lookup, Lookup_target. fold joined.
  split.
  { intros i Hp Ho. unfold os_Stat, open_node, os_Open.
    rewrite Hp. simpl. rewrite Hp, Ho. simpl. by destruct (st_mode i). }
  split.
  { intros mapped i -> -> Hp Ho. simpl. unfold open_node, os_Open.
    rewrite Hp, Ho. simpl. by destruct (st_mode i). }
  split.
  { intros mapped -> -> Hp. simpl. unfold open_node, os_Open. by rewrite Hp. }
  split.
  { intros Hst ->. rewrite Hst. simpl. unfold open_node, os_Open.
    unfold os_Stat in Hst.
    by destruct (path_state env joined) as [| msg | i]. }
  split.
  { intros msg Hp. unfold os_Stat, open_node, os_Open. rewrite Hp. simpl.
    by rewrite Hp. }
  intros i msg Hp Ho. unfold os_Stat, open_node, os_Open. rewrite Hp. simpl.
  by rewrite Hp, Ho.
Qed.

Lemma Lookup_resolution_witness :
  dir_Lookup sample_env (dir_ReadDirAll sample_env ∅ music).1 music "track.mp3"
    = Ok (NodeFile {| file_name := "/music/track.mp3"; file_encoder := "ogg" |}) /\
  dir_Lookup sample_env (dir_ReadDirAll sample_env ∅ music).1 music "track.ogg"
    = Ok (NodeFile {| file_name := "/music/track.mp3"; file_encoder := "ogg" |}) /\
  dir_Lookup sample_env (dir_ReadDirAll sample_env ∅ music).1 music "missing.ogg"
    = Err fuse_ENOENT /\
  dir_Lookup sample_env ∅ {| dir_dir := ""; dir_encoder := "ogg" |} "music"
    = Ok (NodeDir {| dir_dir := "/music"; dir_encoder := "ogg" |}).
Proof.
  split; [| split; [| split]].
  - exact (proj1 (Lookup_resolution sample_env (dir_ReadDirAll sample_env ∅ music).1
                    music "track.mp3")
             (regular_file mp3_bytes) eq_refl eq_refl).
  - exact (proj1 (proj2 (Lookup_resolution sample_env
                           (dir_ReadDirAll sample_env ∅ music).1 music "track.ogg"))
             "/music/track.mp3" (regular_file mp3_bytes)
             eq_refl eq_refl eq_refl eq_refl).
  - exact (proj1 (proj2 (proj2 (proj2 (Lookup_resolution sample_env
                           (dir_ReadDirAll sample_env ∅ music).1 music "missing.ogg"))))
             eq_refl eq_refl).
  - exact (proj1 (Lookup_resolution sample_env ∅ {| dir_dir := ""; dir_encoder := "ogg" |}
                    "music")
             (directory [entry "track.mp3" (regular_file mp3_bytes)]) eq_refl eq_refl).
Defined.

(** A file node made by [dir.Lookup] names a path that exists and opens. *)
Lemma Lookup_file_exists (env : Env) (files : gmap string string) (d : dir)
    (name : string) (f : file) :
  dir_Lookup env files d name = Ok (NodeFile f) ->
  exists i, path_state env (file_name f) = Present i /\ open_err i = None /\
            st_mode i = ModeRegular.
Proof.
  unfold dir_Lookup, open_node, os_Open.
  destruct (path_state env (Lookup_target env files d name)) as [| msg | i] eqn:Hp;
    simpl; try done.
  destruct (open_err i) eqn:Ho; simpl; [done |].
  destruct (st_mode i) eqn:Hm; simpl; try done.
  intros [= <-]. simpl. eauto.
Qed.

(** ** Metadata *)

(** The branch of [file.Attr] that makes up a size. *)
Lemma file_Attr_fabricated (env : Env) (g : Globals) (f : file) (a : Attr)
    (baseName : string) (stat : FileInfo) :
  allSizes g !! file_name f = None ->
  os_Stat env (file_name f) = Err os_ErrNotExist ->
  allFiles g !! file_name f = Some baseName ->
  os_Stat env baseName = Ok stat ->
  file_Attr env g f a =
  ({| Attr_Inode := Attr_Inode a; Attr_Mode := perm_0555;
      Attr_Size := uint64 (10 * uint64 (Size stat)) |}, None).
Proof.
  intros Hs Hst Hf Hb. unfold file_Attr. by rewrite Hs, Hst, Hf, Hb.
Qed.

(** For a node made by [dir.Lookup] that branch is out of reach: without a
    size entry [file.Attr] reports the size of the file at the node's path. *)
Lemma Lookup_file_Attr (env : Env) (g : Globals) (d : dir) (name : string)
    (f : file) (a : Attr) :
  dir_Lookup env (allFiles g) d name = Ok (NodeFile f) ->
  allSizes g !! file_name f = None ->
  exists i, path_state env (file_name f) = Present i /\
            file_Attr env g f a =
            ({| Attr_Inode := Attr_Inode a; Attr_Mode := perm_0555;
                Attr_Size := uint64 (st_size i) |}, None).
Proof.
  intros Hl Hs. destruct (Lookup_file_exists _ _ _ _ _ Hl) as (i & Hp & _ & _).
  exists i. split; [done |].
  unfold file_Attr, os_Stat. by rewrite Hs, Hp.
Qed.

(** C3. In [/music], which holds [track.mp3] and no [track.ogg], listing
    registers the mapping of [track.ogg]; nothing exists at [track.ogg]
    and no size is cached.  [dir.Lookup] of [track.ogg] makes a file node
    named after the mapped source, and [file.Attr] on that node reports
    603, the size of the source, where ten times the source is 6030. *)
Theorem mapped_file_reports_source_size :
  let files := (dir_ReadDirAll sample_env ∅ music).1 in
  let g := with_files no_globals files in
  os_Stat sample_env "/music/track.ogg" = Err os_ErrNotExist /\
  files !! "/music/track.ogg" = Some "/music/track.mp3" /\
  allSizes g = ∅ /\
  (exists stat, os_Stat sample_env "/music/track.mp3" = Ok stat /\ Size stat = 603) /\
  exists f,
    dir_Lookup sample_env files music "track.ogg" = Ok (NodeFile f) /\
    file_name f = "/music/track.mp3" /\
    file_Attr sample_env g f zero_Attr =
      ({| Attr_Inode := 0; Attr_Mode := perm_0555; Attr_Size := 603 |}, None).
Proof.
  intros files g.
  split; [reflexivity |].
  split; [reflexivity |].
  split; [reflexivity |].
  split; [eexists; split; reflexivity |].
  eexists. split; [reflexivity |]. split; reflexivity.
Qed.

(** ** Open *)

(** A node made by [dir.Lookup] opens as a passthrough handle and starts
    no command. *)
Lemma Lookup_file_Open (env : Env) (files : gmap string string) (d : dir)
    (name : string) (f : file) :
  dir_Lookup env files d name = Ok (NodeFile f) ->
  exists file,
    file_path file = file_name f /\
    file_Open env f = ([], Ok (HandleNative {| native_File := file |})).
Proof.
  intros Hl. destruct (Lookup_file_exists _ _ _ _ _ Hl) as (i & Hp & Ho & _).
  exists {| file_path := file_name f; file_inode := i |}. split; [done |].
  unfold file_Open, os_Open. by rewrite Hp, Ho.
Qed.

(** The encoder branch of [file.Open]: taken when [os.Open] fails, and run
    against the node's own path. *)
Lemma file_Open_transcodes (env : Env) (f : file) (e : error) (p : Process) :
  os_Open env (file_name f) = Err e ->
  start env "ffmpeg" ["-i"; file_name f; "-f"; "ogg"; "-"] = Ok p ->
  file_Open env f =
  ([encoder_command f],
   Ok (HandleTranscode {| fh_name := file_name f; fh_close := wait p;
                          fh_pipe := stdout p; fh_buffer := [];
                          fh_encoder := file_encoder f |})).
Proof.
  intros Ho Hs. unfold file_Open. rewrite Ho. simpl. by rewrite Hs.
Qed.

(** C4. In [/music], after listing, [dir.Lookup] of [track.ogg] makes a
    file node named [/music/track.mp3]; [file.Open] on it starts no command
    and returns a passthrough handle over [track.mp3]. *)
Theorem mapped_file_opens_passthrough :
  let files := (dir_ReadDirAll sample_env ∅ music).1 in
  files !! "/music/track.ogg" = Some "/music/track.mp3" /\
  exists f,
    dir_Lookup sample_env files music "track.ogg" = Ok (NodeFile f) /\
    file_Open sample_env f =
      ([], Ok (HandleNative
                 {| native_File := {| file_path := "/music/track.mp3";
                                      file_inode := regular_file mp3_bytes |} |})).
Proof.
  intros files.
  split; [reflexivity |].
  eexists. split; reflexivity.
Qed.

(** ** Passthrough reads *)

Lemma read_span_EOF (i : Inode) (off n : nat) (got : list byte) :
  read_span i off n = (got, Some io_EOF) -> (length got < n)%nat.
Proof.
  unfold read_span.
  destruct (Nat.ltb_spec (length (take n (drop off
             match read_fault i with
             | Some (p, _) => take p (contents i)
             | None => contents i
             end))) n) as [Hlt | Hge].
  - by intros [= <- _].
  - by intros [= _].
Qed.

Lemma ReadAt_EOF (f : File) (n off : Z) (stored : list byte) :
  File_ReadAt f n off = (stored, Some io_EOF) -> Len stored < n.
Proof.
  unfold File_ReadAt.
  destruct (off <? 0); [by intros [=] |].
  intros H. apply read_span_EOF in H. unfold Len. lia.
Qed.

(** C8. When [ReadAt] on the real file ends with [io.EOF], the passthrough
    read returns no error and exactly the bytes [ReadAt] stored, which are
    fewer than were asked for; and a read served on a passthrough handle
    leaves [allSizes] as it was. *)
Theorem passthrough_read (env : Env) (s : Server) (h : nat) (nf : nativeFile)
    (req : ReadRequest) :
  handles s !! h = Some (Some (HandleNative nf)) ->
  (forall stored,
     File_ReadAt (native_File nf) (req_Size req) (req_Offset req) = (stored, Some io_EOF) ->
     nativeFile_Read nf req = Return (stored, None) /\ Len stored < req_Size req) /\
  serve env s (ReqRead h req) = (s, RepRead (nativeFile_Read nf req)) /\
  allSizes (globals (serve env s (ReqRead h req)).1) = allSizes (globals s).
Proof.
  intros Hh.
  split.
  - intros stored Hr. pose proof (ReadAt_EOF _ _ _ _ Hr) as Hlt.
    pose proof (Len_nonneg stored) as Hn.
    split; [| done].
    unfold nativeFile_Read.
    destruct (Z.ltb_spec (req_Size req) 0) as [Hneg | Hpos]; [lia |].
    rewrite Hr. simpl is_EOF. cbv iota.
    rewrite copy_fits.
    2:{ pose proof (make_length (req_Size req) Hpos) as Hm. unfold Len in *. lia. }
    simpl. by rewrite take_app_length.
  - simpl. rewrite Hh. done.
Qed.

Lemma passthrough_read_witness :
  let nf := {| native_File := {| file_path := "/music/track.mp3";
                                  file_inode := regular_file mp3_bytes |} |} in
  let s := {| globals := no_globals; handles := [Some (HandleNative nf)] |} in
  nativeFile_Read nf (read_request 601 8) = Return ([x00; x00], None) /\
  allSizes (globals (serve sample_env s (ReqRead 0 (read_request 601 8))).1) = ∅.
Proof.
  intros nf s.
  destruct (passthrough_read sample_env s 0 nf (read_request 601 8) eq_refl)
    as (Heof & _ & Hsizes).
  split; [| exact Hsizes].
  exact (proj1 (Heof [x00; x00] eq_refl)).
Defined.

(** ** Listing *)

(** C7. In [/odd] the regular file [a.mp3.mp3] is classified as audio and
    its extension is [.mp3]; the listing shows it as [a.ogg.mp3], whose
    extension is still [.mp3]. *)
Theorem doubled_extension_listing :
  isAudio sample_env (Join sample_env (dir_dir odd) "a.mp3.mp3") = true /\
  Ext "a.mp3.mp3" = ".mp3" /\
  (dir_ReadDirAll sample_env ∅ odd).2 =
    Ok [ {| Dirent_Inode := 0; Dirent_Type := DT_File; Dirent_Name := "a.ogg.mp3" |} ] /\
  Ext "a.ogg.mp3" = ".mp3".
Proof. repeat split. Qed.

(** The loop of [dir.ReadDirAll], for a fixed environment and directory. *)
Section ListingLoop.

Variable env : Env.
Variable d : dir.

Lemma step_out (files : gmap string string) (out : list Dirent) (ent : FileInfo) :
  (ReadDirAll_step env d (files, out) ent).2 = out ++ entry_out env d ent.
Proof.
  unfold entry_out, ReadDirAll_step.
  destruct (negb (IsDir (Mode ent)) && negb (IsRegular (Mode ent)));
    [by rewrite app_nil_r |].
  destruct (DirentType_eqb _ DT_File && isAudio env _); [| done].
  by destruct (IsNotExist _).
Qed.

(** What one turn of the loop does to [allFiles]. *)
Lemma step_files (files : gmap string string) (out : list Dirent) (ent : FileInfo) :
  (ReadDirAll_step env d (files, out) ent).1 = files \/
  (IsRegular (Mode ent) = true /\
   isAudio env (Join env (dir_dir d) (Name ent)) = true /\
   os_Stat env (Join env (dir_dir d) (renamed (Name ent))) = Err os_ErrNotExist /\
   (ReadDirAll_step env d (files, out) ent).1 =
     <[Join env (dir_dir d) (renamed (Name ent)) := Join env (dir_dir d) (Name ent)]> files).
Proof.
  unfold ReadDirAll_step, renamed.
  destruct (Mode ent) eqn:Hm; simpl; try by left.
  destruct (isAudio env _) eqn:Ha; simpl; [| by left].
  destruct (os_Stat env _) as [st | e] eqn:Hs; simpl; [by left |].
  destruct e; simpl; try by left.
  right. done.
Qed.

Lemma fold_out (ents : list FileInfo) (files : gmap string string)
    (out : list Dirent) :
  (fold_left (ReadDirAll_step env d) ents (files, out)).2 =
  out ++ concat (map (entry_out env d) ents).
Proof.
  revert files out. induction ents as [| ent ents IH]; intros files out; cbn [fold_left].
  - simpl. by rewrite app_nil_r.
  - destruct (ReadDirAll_step env d (files, out) ent) as [files' out'] eqn:Hstep.
    rewrite IH. pose proof (step_out files out ent) as Ho.
    rewrite Hstep in Ho. simpl in Ho. rewrite Ho. by rewrite <- app_assoc.
Qed.

(** Every mapping present after the loop was there before or comes from a
    regular audio entry whose renamed path did not exist. *)
Lemma fold_files_origin (ents : list FileInfo) (files : gmap string string)
    (out : list Dirent) (k v : string) :
  (fold_left (ReadDirAll_step env d) ents (files, out)).1 !! k = Some v ->
  files !! k = Some v \/
  exists ent, ent ∈ ents /\
    IsRegular (Mode ent) = true /\
    isAudio env (Join env (dir_dir d) (Name ent)) = true /\
    k = Join env (dir_dir d) (renamed (Name ent)) /\
    v = Join env (dir_dir d) (Name ent) /\
    os_Stat env k = Err os_ErrNotExist.
Proof.
  revert files out. induction ents as [| ent ents IH]; intros files out; cbn [fold_left].
  - by left.
  - destruct (ReadDirAll_step env d (files, out) ent) as [files' out'] eqn:Hstep.
    intros Hk. destruct (IH _ _ Hk) as [Hin | (ent' & Hel & Hrest)].
    + pose proof (step_files files out ent) as Hf. rewrite Hstep in Hf.
      simpl in Hf. destruct Hf as [-> | (Hr & Ha & Hs & ->)]; [by left |].
      destruct (decide (Join env (dir_dir d) (renamed (Name ent)) = k)) as [Heq | Hne].
      * subst k. rewrite lookup_insert_eq in Hin. injection Hin as <-.
        right. exists ent. split; [apply list_elem_of_here |]. done.
      * rewrite lookup_insert_ne in Hin by done. by left.
    + right. exists ent'. split; [by apply list_elem_of_further |]. done.
Qed.

(** A path at which something exists is never given a mapping. *)
Lemma fold_files_occupied (ents : list FileInfo) (files : gmap string string)
    (out : list Dirent) (k : string) :
  IsNotExist (err_of (os_Stat env k)) = false ->
  (fold_left (ReadDirAll_step env d) ents (files, out)).1 !! k = files !! k.
Proof.
  intros Hex. revert files out.
  induction ents as [| ent ents IH]; intros files out; cbn [fold_left]; [done |].
  destruct (ReadDirAll_step env d (files, out) ent) as [files' out'] eqn:Hstep.
  rewrite IH. pose proof (step_files files out ent) as Hf. rewrite Hstep in Hf.
  simpl in Hf. destruct Hf as [-> | (_ & _ & Hs & ->)]; [done |].
  apply lookup_insert_ne. intros <-. by rewrite Hs in Hex.
Qed.

End ListingLoop.

(** [dir.ReadDirAll] stores no mapping for a path at which something
    exists. *)
Lemma ReadDirAll_occupied (env : Env) (files : gmap string string) (d : dir)
    (k : string) :
  IsNotExist (err_of (os_Stat env k)) = false ->
  (dir_ReadDirAll env files d).1 !! k = files !! k.
Proof.
  intros Hex. unfold dir_ReadDirAll.
  destruct (os_Open env (dir_dir d)) as [dh | e]; [| done].
  destruct (File_Readdir dh) as [ents | e]; [| done].
  pose proof (fold_files_occupied env d ents files [] k Hex) as Hocc.
  by destruct (fold_left _ ents (files, [])) as [files' out].
Qed.

(** C5. Every mapping found in [allFiles] after [dir.ReadDirAll] was there
    before the call or was stored for a regular entry of the directory
    that [isAudio] accepts, under the entry's renamed path, at which
    [os.Stat] found nothing; and a path at which something exists has
    after the call the mapping it had before, if any. *)
Theorem listing_mappings (env : Env) (files : gmap string string) (d : dir) :
  (forall k v,
     (dir_ReadDirAll env files d).1 !! k = Some v ->
     files !! k = Some v \/
     exists dh ents ent,
       os_Open env (dir_dir d) = Ok dh /\ File_Readdir dh = Ok ents /\
       ent ∈ ents /\
       IsRegular (Mode ent) = true /\
       isAudio env (Join env (dir_dir d) (Name ent)) = true /\
       k = Join env (dir_dir d) (renamed (Name ent)) /\
       v = Join env (dir_dir d) (Name ent) /\
       os_Stat env k = Err os_ErrNotExist) /\
  (forall k,
     IsNotExist (err_of (os_Stat env k)) = false ->
     (dir_ReadDirAll env files d).1 !! k = files !! k).
Proof.
  unfold dir_ReadDirAll.
  destruct (os_Open env (dir_dir d)) as [dh | e] eqn:Ho; simpl;
    [| split; [by left | done]].
  destruct (File_Readdir dh) as [ents | e] eqn:Hr; simpl;
    [| split; [by left | done]].
  destruct (fold_left _ ents (files, [])) as [files' out] eqn:Hfold. simpl.
  split.
  - intros k v Hk.
    destruct (fold_files_origin env d ents files [] k v) as [Hin | (ent & Hrest)].
    + by rewrite Hfold.
    + by left.
    + right. exists dh, ents, ent. split; [done |]. split; [done |]. exact Hrest.
  - intros k Hex.
    pose proof (ReadDirAll_occupied env files d k Hex) as Hocc.
    unfold dir_ReadDirAll in Hocc. by rewrite Ho, Hr, Hfold in Hocc.
Qed.

Lemma listing_mappings_witness :
  (dir_ReadDirAll sample_env ∅ both).1 !! "/both/intro.ogg" = None /\
  (dir_ReadDirAll sample_env ∅ music).1 !! "/music/track.ogg" = Some "/music/track.mp3" /\
  isAudio sample_env "/music/track.mp3" = true.
Proof.
  split.
  - rewrite (proj2 (listing_mappings sample_env ∅ both) "/both/intro.ogg")
      by reflexivity.
    apply lookup_empty.
  - assert (Hk : (dir_ReadDirAll sample_env ∅ music).1 !! "/music/track.ogg"
                 = Some "/music/track.mp3") by reflexivity.
    split; [exact Hk |].
    destruct (proj1 (listing_mappings sample_env ∅ music) _ _ Hk)
      as [Hold | (dh & ents & ent & Ho & Hr & Hel & Hreg & Ha & Hkey & Hv & Hs)].
    + rewrite lookup_empty in Hold. discriminate.
    + simpl in Hv. rewrite Hv. exact Ha.
Defined.

(** ** Names listed twice *)

Lemma named_app (r : string) (a b : list Dirent) :
  named r (a ++ b) = named r a ++ named r b.
Proof. unfold named. apply filter_app. Qed.

Lemma named_concat_elem {A} (f : A -> list Dirent) (r : string) (l : list A) (y : A) :
  y ∈ l ->
  (1 <= length (named r (f y)))%nat ->
  (1 <= length (named r (concat (map f l))))%nat.
Proof.
  intros Hy H1. destruct (list_elem_of_split _ _ Hy) as (l1 & l2 & ->).
  rewrite map_app, concat_app. simpl.
  rewrite !named_app, !length_app. lia.
Qed.

Lemma named_concat_two {A} (f : A -> list Dirent) (r : string) (l : list A) (x y : A) :
  x ∈ l -> y ∈ l -> x <> y ->
  (1 <= length (named r (f x)))%nat ->
  (1 <= length (named r (f y)))%nat ->
  (2 <= length (named r (concat (map f l))))%nat.
Proof.
  intros Hx Hy Hne H1 H2. destruct (list_elem_of_split _ _ Hx) as (l1 & l2 & ->).
  rewrite map_app, concat_app. simpl.
  rewrite !named_app, !length_app.
  apply elem_of_app in Hy. destruct Hy as [Hy | Hy].
  - pose proof (named_concat_elem f r l1 y Hy H2). lia.
  - apply elem_of_cons in Hy. destruct Hy as [-> | Hy]; [done |].
    pose proof (named_concat_elem f r l2 y Hy H2). lia.
Qed.

Lemma elem_of_concat_map {A} (f : A -> list Dirent) (l : list A) (x : A) (e : Dirent) :
  x ∈ l -> e ∈ f x -> e ∈ concat (map f l).
Proof.
  intros Hx He. destruct (list_elem_of_split _ _ Hx) as (l1 & l2 & ->).
  rewrite map_app, concat_app. simpl.
  rewrite !elem_of_app. auto.
Qed.

(** A regular audio entry is listed under its renamed name. *)
Lemma entry_out_audio (env : Env) (d : dir) (ent : FileInfo) :
  IsRegular (Mode ent) = true ->
  isAudio env (Join env (dir_dir d) (Name ent)) = true ->
  entry_out env d ent =
  [ {| Dirent_Inode := 0; Dirent_Type := DT_File; Dirent_Name := renamed (Name ent) |} ].
Proof.
  intros Hr Ha. unfold entry_out, ReadDirAll_step, renamed.
  destruct (Mode ent); try done. simpl. rewrite Ha.
  by destruct (IsNotExist _).
Qed.

(** A directory, or a regular file whose extension already is the target,
    is listed under its own name. *)
Lemma entry_out_literal (env : Env) (d : dir) (occ : FileInfo) :
  Mode occ <> ModeIrregular ->
  Ext (Name occ) = ".ogg" ->
  entry_out env d occ =
  [ {| Dirent_Inode := 0;
       Dirent_Type := if IsDir (Mode occ) then DT_Dir else DT_File;
       Dirent_Name := Name occ |} ].
Proof.
  intros Hm He. unfold entry_out, ReadDirAll_step.
  destruct (Mode occ); try done. simpl.
  destruct (isAudio env _); [| done].
  rewrite He. unfold Replace1. simpl.
  by destruct (IsNotExist _).
Qed.

Lemma named_singleton (r : string) (e : Dirent) :
  Dirent_Name e = r -> (1 <= length (named r [e]))%nat.
Proof.
  intros H. unfold named. rewrite filter_cons_True by done. simpl. lia.
Qed.

(** In [/fifo] the audio file [intro.mp3] sits next to a named pipe called
    [intro.ogg]: something exists at the renamed path, no mapping is
    stored, and the listing has a single entry named [intro.ogg]. *)
Lemma fifo_listing_single_entry :
  isAudio sample_env (Join sample_env (dir_dir fifo) "intro.mp3") = true /\
  Ext "intro.mp3" = ".mp3" /\
  renamed "intro.mp3" = "intro.ogg" /\
  os_Stat sample_env (Join sample_env (dir_dir fifo) "intro.ogg")
    = Ok {| Name := "/fifo/intro.ogg"; Mode := ModeIrregular; Size := 0 |} /\
  dir_ReadDirAll sample_env ∅ fifo =
    (∅, Ok [ {| Dirent_Inode := 0; Dirent_Type := DT_File; Dirent_Name := "intro.ogg" |} ]) /\
  ~ (exists out, (dir_ReadDirAll sample_env ∅ fifo).2 = Ok out /\
                 (2 <= length (named "intro.ogg" out))%nat).
Proof.
  split; [reflexivity |].
  split; [reflexivity |].
  split; [reflexivity |].
  split; [reflexivity |].
  split; [reflexivity |].
  intros (out & Hout & Hlen).
  assert (Hval : (dir_ReadDirAll sample_env ∅ fifo).2 =
                 Ok [ {| Dirent_Inode := 0; Dirent_Type := DT_File;
                         Dirent_Name := "intro.ogg" |} ]) by reflexivity.
  rewrite Hval in Hout. injection Hout as <-.
  vm_compute in Hlen. lia.
Qed.

(** C10. When a directory holds a regular audio entry whose extension is
    not [.ogg], and an entry bearing the audio entry's renamed name that is
    a directory or a regular file with extension [.ogg], and something
    exists at that renamed path, then one listing shows the renamed name at
    least twice: once as a file for the audio entry and once for the
    literal entry; and the listing stores no mapping for the renamed path. *)
Theorem occupied_name_listed_twice (env : Env) (files : gmap string string) (d : dir)
    (dh : File) (ents : list FileInfo) (ent occ : FileInfo) :
  os_Open env (dir_dir d) = Ok dh ->
  File_Readdir dh = Ok ents ->
  ent ∈ ents ->
  IsRegular (Mode ent) = true ->
  isAudio env (Join env (dir_dir d) (Name ent)) = true ->
  Ext (Name ent) <> ".ogg" ->
  occ ∈ ents ->
  Name occ = renamed (Name ent) ->
  Mode occ <> ModeIrregular ->
  Ext (Name occ) = ".ogg" ->
  IsNotExist (err_of (os_Stat env (Join env (dir_dir d) (Name occ)))) = false ->
  exists out,
    (dir_ReadDirAll env files d).2 = Ok out /\
    {| Dirent_Inode := 0; Dirent_Type := DT_File; Dirent_Name := Name occ |} ∈ out /\
    {| Dirent_Inode := 0;
       Dirent_Type := if IsDir (Mode occ) then DT_Dir else DT_File;
       Dirent_Name := Name occ |} ∈ out /\
    (2 <= length (named (Name occ) out))%nat /\
    (dir_ReadDirAll env files d).1 !! Join env (dir_dir d) (Name occ)
      = files !! Join env (dir_dir d) (Name occ).
Proof.
  intros Ho Hr Hent Hreg Haud Hext Hocc Hname Hmode Hogg Hex.
  pose proof (entry_out_audio env d ent Hreg Haud) as Hea. rewrite <- Hname in Hea.
  pose proof (entry_out_literal env d occ Hmode Hogg) as Hel.
  assert (Hne : ent <> occ).
  { intros ->. done. }
  exists (concat (map (entry_out env d) ents)).
  split.
  { unfold dir_ReadDirAll. rewrite Ho, Hr.
    pose proof (fold_out env d ents files []) as Hf.
    destruct (fold_left _ ents (files, [])) as [files' out]. simpl in *. by rewrite Hf. }
  split.
  { apply (elem_of_concat_map _ _ ent); [done |]. rewrite Hea. apply list_elem_of_here. }
  split.
  { apply (elem_of_concat_map _ _ occ); [done |]. rewrite Hel. apply list_elem_of_here. }
  split.
  { apply (named_concat_two _ _ _ ent occ); try done.
    - rewrite Hea. by apply named_singleton.
    - rewrite Hel. by apply named_singleton. }
  by apply ReadDirAll_occupied.
Qed.

Lemma occupied_name_listed_twice_witness :
  (dir_ReadDirAll sample_env ∅ both).2 =
    Ok [ {| Dirent_Inode := 0; Dirent_Type := DT_File; Dirent_Name := "intro.ogg" |};
         {| Dirent_Inode := 0; Dirent_Type := DT_File; Dirent_Name := "intro.ogg" |} ] /\
  exists out,
    (dir_ReadDirAll sample_env ∅ both).2 = Ok out /\
    (2 <= length (named "intro.ogg" out))%nat /\
    (dir_ReadDirAll sample_env ∅ both).1 !! "/both/intro.ogg" = None.
Proof.
  split; [reflexivity |].
  destruct (occupied_name_listed_twice sample_env ∅ both
              {| file_path := "/both";
                 file_inode := directory [entry "intro.mp3" (regular_file mp3_bytes);
                                          entry "intro.ogg" (regular_file ogg_bytes)] |}
              [entry "intro.mp3" (regular_file mp3_bytes);
               entry "intro.ogg" (regular_file ogg_bytes)]
              (entry "intro.mp3" (regular_file mp3_bytes))
              (entry "intro.ogg" (regular_file ogg_bytes)))
    as (out & Hout & _ & _ & Htwo & Hmap).
  - reflexivity.
  - reflexivity.
  - apply list_elem_of_here.
  - reflexivity.
  - reflexivity.
  - simpl. vm_compute. discriminate.
  - apply list_elem_of_further, list_elem_of_here.
  - reflexivity.
  - simpl. discriminate.
  - reflexivity.
  - reflexivity.
  - exists out. split; [exact Hout |]. split; [exact Htwo |].
    etrans; [exact Hmap | apply lookup_empty].
Defined.

(** * Further properties of the code *)

(** ** Transcode sessions as random-access readers *)

Lemma plain_well_typed (req : ReadRequest) : plain req -> well_typed req.
Proof.
  intros (Ho & Hs & He). unfold well_typed, int64_range. lia.
Qed.

Lemma req_end_plain (req : ReadRequest) :
  plain req -> req_end req = req_Offset req + req_Size req.
Proof.
  intros (Ho & Hs & He). unfold req_end.
  rewrite (int64_id (req_Size req)) by lia. apply int64_id. lia.
Qed.

Lemma fill_stream (fh : fileHandle) (req : ReadRequest) :
  stream (fill fh req).1 = stream fh /\
  fh_name (fill fh req).1 = fh_name fh /\
  broken (fh_pipe (fill fh req).1) = broken (fh_pipe fh).
Proof.
  unfold fill, stream. destruct (_ <? _); [| done].
  unfold CopyN. destruct (_ <? _); simpl;
    by rewrite <- app_assoc, take_drop.
Qed.

(** One read keeps the stream, the name and the pipe's failure. *)
Lemma Read_stream (fh : fileHandle) (sizes : gmap string Z) (req : ReadRequest) :
  stream (fileHandle_Read fh sizes req).1.1 = stream fh /\
  fh_name (fileHandle_Read fh sizes req).1.1 = fh_name fh /\
  broken (fh_pipe (fileHandle_Read fh sizes req).1.1) = broken (fh_pipe fh).
Proof. rewrite Read_handle. apply fill_stream. Qed.

(** X6. No read loses, reorders or invents bytes: over any run of reads the
    buffer followed by the rest of the pipe stays the same byte sequence,
    and the session keeps its name and its pipe's failure. *)
Theorem reads_keep_stream (reqs : list ReadRequest) (fh : fileHandle)
    (sizes : gmap string Z) :
  stream (read_all fh sizes reqs).1 = stream fh /\
  fh_name (read_all fh sizes reqs).1 = fh_name fh /\
  broken (fh_pipe (read_all fh sizes reqs).1) = broken (fh_pipe fh).
Proof.
  revert fh sizes. induction reqs as [| req reqs IH]; intros fh sizes; [done |].
  simpl. pose proof (Read_stream fh sizes req) as (Hs & Hn & Hb).
  destruct (fileHandle_Read fh sizes req) as [[fh' sizes'] out]. simpl in *.
  destruct (IH fh' sizes') as (Hs' & Hn' & Hb').
  by rewrite Hs', Hn', Hb'.
Qed.

(** What [deliver] computes for a plain request, with the bounds written
    as minima. *)
Lemma deliver_spec (fh : fileHandle) (sizes : gmap string Z) (req : ReadRequest) :
  plain req ->
  let blen := Len (fh_buffer fh) in
  let sl := slice (fh_buffer fh) (Z.min (req_Offset req) blen)
                  (Z.min (req_Offset req + req_Size req) blen) in
  deliver fh sizes req =
  (fh,
   (if Len sl =? 0 then <[fh_name fh := uint64 blen]> sizes else sizes),
   Return (sl ++ repeat x00 (Z.to_nat (req_Size req - Len sl)),
           if Len sl =? 0 then Some io_EOF else None)).
Proof.
  intros Hp blen sl. pose proof (req_end_plain req Hp) as Hend.
  destruct Hp as (Ho & Hs & He).
  pose proof (Len_nonneg (fh_buffer fh)) as Hn. fold blen in Hn.
  assert (Hmin : read_min blen req = Z.min (req_Offset req) blen).
  { unfold read_min. rewrite Z.gtb_ltb.
    destruct (Z.ltb_spec blen (req_Offset req)); lia. }
  assert (Hmax : read_max blen req = Z.min (req_Offset req + req_Size req) blen).
  { unfold read_max. rewrite Z.gtb_ltb, Hend.
    destruct (Z.ltb_spec blen (req_Offset req + req_Size req)); lia. }
  assert (Hlen : Len sl = Z.min (req_Offset req + req_Size req) blen
                          - Z.min (req_Offset req) blen).
  { unfold sl. apply slice_Len; unfold blen; lia. }
  unfold deliver. fold blen. rewrite Hmin, Hmax. fold sl.
  destruct (Z.ltb_spec (req_Size req) 0) as [Hneg | _]; [lia |].
  assert (Hb : (0 <=? Z.min (req_Offset req) blen)
               && (Z.min (req_Offset req) blen <=? Z.min (req_Offset req + req_Size req) blen)
               && (Z.min (req_Offset req + req_Size req) blen <=? blen) = true).
  { rewrite !andb_true_iff, !Z.leb_le. lia. }
  rewrite Hb. cbn [negb].
  rewrite copy_fits.
  2:{ pose proof (make_length (req_Size req) Hs) as Hm. unfold Len in *. lia. }
  unfold make. rewrite drop_repeat.
  replace (Z.to_nat (req_Size req) - length sl)%nat
    with (Z.to_nat (req_Size req - Len sl)) by (unfold Len; lia).
  by destruct (Len sl =? 0).
Qed.

(** When the stream still holds the whole range, the fill step succeeds
    and the buffer reaches the end of the range. *)
Lemma fill_enough (fh : fileHandle) (req : ReadRequest) :
  req_end req <= Len (stream fh) ->
  (fill fh req).2 = None /\ req_end req <= Len (fh_buffer (fill fh req).1).
Proof.
  intros Hlen. unfold fill.
  destruct (Z.ltb_spec (Len (fh_buffer fh)) (req_end req)) as [Hlt | Hge]; [| done].
  pose proof (req_end_bounds req) as Hb. unfold int64_range in Hb.
  pose proof (Len_nonneg (fh_buffer fh)) as Hn.
  rewrite int64_id by (unfold int64_range; lia).
  unfold stream in Hlen. rewrite Len_app in Hlen.
  unfold CopyN.
  assert (Hgot : Len (take (Z.to_nat (req_end req - Len (fh_buffer fh)))
                           (pending (fh_pipe fh)))
                 = req_end req - Len (fh_buffer fh)).
  { unfold Len in *. rewrite length_take. lia. }
  rewrite Hgot, Z.ltb_irrefl. simpl. split; [done |].
  rewrite Len_app, Hgot. lia.
Qed.

Lemma read_within_state (fh : fileHandle) (sizes : gmap string Z) (req : ReadRequest) :
  plain req ->
  0 < req_Size req ->
  req_Offset req + req_Size req <= Len (stream fh) ->
  (fileHandle_Read fh sizes req).2 =
    Return (slice (stream fh) (req_Offset req) (req_Offset req + req_Size req), None) /\
  (fileHandle_Read fh sizes req).1.2 = sizes.
Proof.
  intros Hp Hpos Hin. pose proof (req_end_plain req Hp) as Hend.
  destruct (fill_enough fh req) as [Hnone Hcov]; [by rewrite Hend |].
  destruct (fill_stream fh req) as (Hst & _ & _).
  rewrite Read_deliver by (by rewrite Hnone).
  rewrite deliver_spec by done.
  rewrite Hend in Hcov. destruct Hp as (Ho & Hs & He).
  rewrite !Z.min_l by lia.
  assert (Hsl : slice (fh_buffer (fill fh req).1) (req_Offset req)
                      (req_Offset req + req_Size req)
                = slice (stream fh) (req_Offset req) (req_Offset req + req_Size req)).
  { rewrite <- Hst. unfold stream. by rewrite slice_app_l by lia. }
  rewrite Hsl.
  assert (Hlen : Len (slice (stream fh) (req_Offset req) (req_Offset req + req_Size req))
                 = req_Size req).
  { rewrite slice_Len by lia. lia. }
  rewrite Hlen.
  destruct (Z.eqb_spec (req_Size req) 0) as [Hz | _]; [lia |].
  rewrite Z.sub_diag. simpl. by rewrite app_nil_r.
Qed.

(** X1. After any run of earlier reads, a read of a range that lies inside
    the encoder's output returns exactly the bytes of that range, without
    error and without touching [allSizes], wherever the earlier reads
    were. *)
Theorem read_within_stream (fh : fileHandle) (sizes : gmap string Z)
    (reqs : list ReadRequest) (req : ReadRequest) :
  plain req ->
  0 < req_Size req ->
  req_Offset req + req_Size req <= Len (stream fh) ->
  let now := read_all fh sizes reqs in
  (fileHandle_Read now.1 now.2 req).2 =
    Return (slice (stream fh) (req_Offset req) (req_Offset req + req_Size req), None) /\
  (fileHandle_Read now.1 now.2 req).1.2 = now.2.
Proof.
  intros Hp Hpos Hin now.
  destruct (reads_keep_stream reqs fh sizes) as (Hst & _ & _). fold now in Hst.
  rewrite <- Hst. apply read_within_state; try done. by rewrite Hst.
Qed.

Lemma read_within_stream_witness :
  plain (read_request 1 2) /\
  (fileHandle_Read (read_all short_session ∅ [read_request 2 1; read_request 0 1]).1
                   (read_all short_session ∅ [read_request 2 1; read_request 0 1]).2
                   (read_request 1 2)).2 = Return ([x02; x03], None).
Proof.
  assert (Hp : plain (read_request 1 2)).
  { unfold plain. simpl. lia. }
  split; [exact Hp |].
  apply (read_within_stream short_session ∅ [read_request 2 1; read_request 0 1]
           (read_request 1 2) Hp); simpl; unfold Len; simpl; lia.
Defined.

(** A pipe that is not broken never makes the fill step fail. *)
Lemma fill_not_fatal (fh : fileHandle) (req : ReadRequest) :
  broken (fh_pipe fh) = None -> fatal (fill fh req).2 = None.
Proof.
  intros Hb. unfold fill. destruct (_ <? _); [| done].
  unfold CopyN. rewrite Hb. by destruct (_ <? _).
Qed.

(** When the range ends past the stream, the fill step drains the pipe. *)
Lemma fill_drains (fh : fileHandle) (req : ReadRequest) :
  Len (stream fh) < req_end req ->
  fh_buffer (fill fh req).1 = stream fh /\
  exhausted (fill fh req).1 /\
  (fill fh req).2 =
    Some (match broken (fh_pipe fh) with
          | Some msg => other_error msg
          | None => io_EOF
          end).
Proof.
  intros Hlen. unfold stream in *. rewrite Len_app in Hlen.
  pose proof (Len_nonneg (pending (fh_pipe fh))) as Hpn.
  pose proof (Len_nonneg (fh_buffer fh)) as Hn.
  pose proof (req_end_bounds req) as Hb. unfold int64_range in Hb.
  unfold fill, exhausted.
  destruct (Z.ltb_spec (Len (fh_buffer fh)) (req_end req)) as [Hlt | Hge]; [| lia].
  rewrite int64_id by (unfold int64_range; lia).
  unfold CopyN.
  assert (Htake : take (Z.to_nat (req_end req - Len (fh_buffer fh))) (pending (fh_pipe fh))
                  = pending (fh_pipe fh)).
  { apply take_ge. unfold Len in *. lia. }
  assert (Hdrop : drop (Z.to_nat (req_end req - Len (fh_buffer fh))) (pending (fh_pipe fh))
                  = []).
  { apply drop_ge. unfold Len in *. lia. }
  rewrite Htake, Hdrop.
  destruct (Z.ltb_spec (Len (pending (fh_pipe fh))) (req_end req - Len (fh_buffer fh)));
    [done | lia].
Qed.

(** X2. A read of at least one byte that starts at or past the end of the
    encoder's output, on a pipe that does not fail, reports end-of-stream,
    leaves the whole output in the buffer with the pipe drained, and stores
    the total number of bytes the encoder produced under the session's
    name. *)
Theorem read_past_end (fh : fileHandle) (sizes : gmap string Z) (req : ReadRequest) :
  plain req ->
  0 < req_Size req ->
  Len (stream fh) <= req_Offset req ->
  broken (fh_pipe fh) = None ->
  let res := fileHandle_Read fh sizes req in
  res.2 = Return (make (req_Size req), Some io_EOF) /\
  res.1.2 = <[fh_name fh := uint64 (Len (stream fh))]> sizes /\
  fh_buffer res.1.1 = stream fh /\
  exhausted res.1.1.
Proof.
  intros Hp Hpos Hpast Hb res. unfold res.
  pose proof (req_end_plain req Hp) as Hend.
  destruct (fill_drains fh req) as (Hbuf & Hx & _); [rewrite Hend; lia |].
  destruct (fill_stream fh req) as (_ & Hname & _).
  rewrite Read_handle.
  rewrite Read_deliver by (by apply fill_not_fatal).
  rewrite deliver_spec by done. cbn zeta.
  rewrite Hbuf, Hname.
  pose proof (Len_nonneg (stream fh)) as Hn.
  rewrite !Z.min_r by lia.
  assert (Hsl : slice (stream fh) (Len (stream fh)) (Len (stream fh)) = []).
  { unfold slice. rewrite Z.sub_diag. apply take_0. }
  rewrite Hsl. simpl. rewrite Z.sub_0_r.
  done.
Qed.

Lemma read_past_end_witness :
  plain (read_request 3 4) /\
  (fileHandle_Read short_session ∅ (read_request 3 4)).1.2 !! "/music/track.ogg" = Some 3.
Proof.
  assert (Hp : plain (read_request 3 4)).
  { unfold plain. simpl. lia. }
  split; [exact Hp |].
  destruct (read_past_end short_session ∅ (read_request 3 4) Hp) as (_ & Hs & _ & _).
  - simpl. lia.
  - unfold Len. simpl. lia.
  - reflexivity.
  - rewrite Hs. apply lookup_insert_eq.
Defined.

(** X3. When the pipe is broken and the range ends past what the pipe can
    still deliver, the read returns the pipe's error and no data, stores
    nothing in [allSizes], and keeps in the buffer every byte the pipe
    delivered before it failed. *)
Theorem read_broken_pipe (fh : fileHandle) (sizes : gmap string Z) (req : ReadRequest)
    (msg : string) :
  broken (fh_pipe fh) = Some msg ->
  Len (stream fh) < req_end req ->
  let res := fileHandle_Read fh sizes req in
  res.2 = Return ([], Some (other_error msg)) /\
  res.1.2 = sizes /\
  fh_buffer res.1.1 = stream fh.
Proof.
  intros Hb Hlen res. unfold res.
  destruct (fill_drains fh req Hlen) as (Hbuf & _ & He). rewrite Hb in He.
  assert (Hf : fatal (fill fh req).2 = Some (other_error msg)) by (by rewrite He).
  rewrite (Read_fatal _ _ _ _ Hf). done.
Qed.

Lemma read_broken_pipe_witness :
  (fileHandle_Read broken_session ∅ (read_request 0 4)).2
    = Return ([], Some (other_error "read |0: file already closed")) /\
  fh_buffer (fileHandle_Read broken_session ∅ (read_request 0 4)).1.1 = [x01; x02].
Proof.
  destruct (read_broken_pipe broken_session ∅ (read_request 0 4)
              "read |0: file already closed" eq_refl) as (Ho & _ & Hbuf).
  - vm_compute. reflexivity.
  - split; [exact Ho | exact Hbuf].
Defined.

(** The end of the range for a size that is not negative: the plain sum,
    or a wrapped value below zero. *)
Lemma req_end_wrap (req : ReadRequest) :
  well_typed req -> 0 <= req_Size req ->
  (req_Offset req + req_Size req < 2 ^ 63 /\
   req_end req = req_Offset req + req_Size req) \/
  (2 ^ 63 <= req_Offset req + req_Size req /\ req_end req < 0).
Proof.
  intros [Ho Hs] Hpos. unfold req_end, int64_range in *.
  rewrite (int64_id (req_Size req)) by lia.
  destruct (Z_lt_dec (req_Offset req + req_Size req) (2 ^ 63)) as [Hlt | Hge].
  - left. split; [done |]. apply int64_id. lia.
  - right. split; [lia |]. rewrite int64_wrap_high by lia. lia.
Qed.

(** X4. For a request of machine integers whose fill step did not fail,
    the read panics exactly when the size is negative, the offset is
    negative, or offset plus size does not fit an [int64]. *)
Theorem Read_panics_iff (fh : fileHandle) (sizes : gmap string Z) (req : ReadRequest) :
  well_typed req ->
  fatal (fill fh req).2 = None ->
  ((exists msg, (fileHandle_Read fh sizes req).2 = Panic msg) <->
   req_Size req < 0 \/ req_Offset req < 0 \/ 2 ^ 63 <= req_Offset req + req_Size req).
Proof.
  intros Hwt Hf. rewrite Read_deliver by done.
  set (fh1 := (fill fh req).1).
  pose proof (Len_nonneg (fh_buffer fh1)) as Hn.
  unfold deliver.
  destruct (Z.ltb_spec (req_Size req) 0) as [Hneg | Hpos].
  { simpl. split; [intros _; by left | intros _; eauto]. }
  destruct ((0 <=? read_min (Len (fh_buffer fh1)) req)
            && (read_min (Len (fh_buffer fh1)) req <=? read_max (Len (fh_buffer fh1)) req)
            && (read_max (Len (fh_buffer fh1)) req <=? Len (fh_buffer fh1))) eqn:Hb;
    cbn [negb].
  - apply andb_true_iff in Hb as [Hb H3]. apply andb_true_iff in Hb as [H1 H2].
    apply Z.leb_le in H1, H2, H3.
    assert (Hok : ~ (req_Size req < 0 \/ req_Offset req < 0 \/
                     2 ^ 63 <= req_Offset req + req_Size req)).
    { unfold read_min, read_max in *. rewrite !Z.gtb_ltb in *.
      destruct (Z.ltb_spec (Len (fh_buffer fh1)) (req_Offset req));
        destruct (Z.ltb_spec (Len (fh_buffer fh1)) (req_end req));
        destruct (req_end_wrap req Hwt Hpos); lia. }
    destruct (copy _ _) as [data n].
    split; [| done].
    intros [msg Hm]. by destruct (n =? 0).
  - simpl. split; [| intros _; eauto]. intros _. right.
    apply andb_false_iff in Hb as [Hb | H3].
    + apply andb_false_iff in Hb as [H1 | H2].
      * apply Z.leb_gt in H1.
        unfold read_min in *. rewrite !Z.gtb_ltb in *.
        destruct (Z.ltb_spec (Len (fh_buffer fh1)) (req_Offset req)); lia.
      * apply Z.leb_gt in H2.
        unfold read_min, read_max in *. rewrite !Z.gtb_ltb in *.
        destruct (Z.ltb_spec (Len (fh_buffer fh1)) (req_Offset req));
          destruct (Z.ltb_spec (Len (fh_buffer fh1)) (req_end req));
          destruct (req_end_wrap req Hwt Hpos); lia.
    + apply Z.leb_gt in H3.
      unfold read_max in *. rewrite !Z.gtb_ltb in *.
      destruct (Z.ltb_spec (Len (fh_buffer fh1)) (req_end req)); lia.
Qed.

Lemma Read_panics_iff_witness :
  well_typed (read_request (2 ^ 63 - 1) 1) /\
  exists msg, (fileHandle_Read short_session ∅ (read_request (2 ^ 63 - 1) 1)).2 = Panic msg.
Proof.
  assert (Hwt : well_typed (read_request (2 ^ 63 - 1) 1)).
  { unfold well_typed, int64_range. simpl. lia. }
  split; [exact Hwt |].
  apply (Read_panics_iff short_session ∅ (read_request (2 ^ 63 - 1) 1) Hwt).
  - reflexivity.
  - right. right. simpl. lia.
Defined.

(** X5. A read of zero bytes at an offset that is not negative, on a pipe
    that does not fail, always reports end-of-stream, returns no bytes, and
    stores the length the buffer has at that moment under the session's
    name, whether or not the pipe has more to deliver. *)
Theorem zero_length_read (fh : fileHandle) (sizes : gmap string Z) (req : ReadRequest) :
  plain req ->
  req_Size req = 0 ->
  broken (fh_pipe fh) = None ->
  let res := fileHandle_Read fh sizes req in
  res.2 = Return ([], Some io_EOF) /\
  res.1.2 = <[fh_name fh := uint64 (Len (fh_buffer res.1.1))]> sizes.
Proof.
  intros Hp Hz Hb res. unfold res.
  destruct (fill_stream fh req) as (_ & Hname & _).
  rewrite Read_handle.
  rewrite Read_deliver by (by apply fill_not_fatal).
  rewrite deliver_spec by done. cbn zeta.
  rewrite Hz, Z.add_0_r.
  assert (Hsl : forall b : list byte,
             slice b (Z.min (req_Offset req) (Len b)) (Z.min (req_Offset req) (Len b)) = []).
  { intros b. unfold slice. rewrite Z.sub_diag. apply take_0. }
  rewrite Hsl. simpl. by rewrite Hname.
Qed.

Lemma zero_length_read_witness :
  plain (read_request 1 0) /\
  (fileHandle_Read short_session ∅ (read_request 1 0)).1.2 !! "/music/track.ogg" = Some 1 /\
  pending (fh_pipe (fileHandle_Read short_session ∅ (read_request 1 0)).1.1) = [x02; x03].
Proof.
  assert (Hp : plain (read_request 1 0)).
  { unfold plain. simpl. lia. }
  split; [exact Hp |].
  destruct (zero_length_read short_session ∅ (read_request 1 0) Hp eq_refl eq_refl)
    as (_ & Hs).
  split; [| reflexivity].
  rewrite Hs. apply lookup_insert_eq.
Defined.

(** ** Passthrough handles as views of the real file *)

Lemma read_span_length (i : Inode) (off n : nat) :
  (length (read_span i off n).1 <= n)%nat.
Proof.
  unfold read_span. destruct (_ <? _)%nat; simpl; rewrite length_take; lia.
Qed.

Lemma ReadAt_length (f : File) (n off : Z) :
  0 <= n -> Len (File_ReadAt f n off).1 <= n.
Proof.
  intros Hn. unfold File_ReadAt. destruct (off <? 0); simpl.
  - unfold Len. simpl. lia.
  - pose proof (read_span_length (file_inode f) (Z.to_nat off) (Z.to_nat n)).
    unfold Len. lia.
Qed.

(** X9. A passthrough read hands back exactly the bytes [ReadAt] stored,
    never the unused tail of the buffer it made, together with [ReadAt]'s
    error, except that [io.EOF] is turned into no error; a negative size
    makes it panic. *)
Theorem passthrough_relays_ReadAt (nf : nativeFile) (req : ReadRequest) :
  (req_Size req < 0 -> exists msg, nativeFile_Read nf req = Panic msg) /\
  (0 <= req_Size req ->
   nativeFile_Read nf req =
   Return ((File_ReadAt (native_File nf) (req_Size req) (req_Offset req)).1,
           match (File_ReadAt (native_File nf) (req_Size req) (req_Offset req)).2 with
           | Some io_EOF => None
           | e => e
           end)).
Proof.
  unfold nativeFile_Read. split.
  - intros Hneg. destruct (Z.ltb_spec (req_Size req) 0); [eauto | lia].
  - intros Hpos. destruct (Z.ltb_spec (req_Size req) 0); [lia |].
    pose proof (ReadAt_length (native_File nf) (req_Size req) (req_Offset req) Hpos) as Hl.
    destruct (File_ReadAt _ _ _) as [stored e]. cbn [fst snd] in *.
    rewrite copy_fits.
    2:{ pose proof (make_length (req_Size req) Hpos) as Hm. unfold Len in *. lia. }
    cbn [fst]. rewrite take_app_length.
    destruct e as [[] |]; done.
Qed.

Lemma passthrough_relays_ReadAt_witness :
  (exists msg, nativeFile_Read {| native_File := {| file_path := "/music/track.mp3";
                                                   file_inode := regular_file mp3_bytes |} |}
                               (read_request 0 (-1)) = Panic msg) /\
  nativeFile_Read {| native_File := {| file_path := "/music/track.mp3";
                                       file_inode := regular_file mp3_bytes |} |}
                  (read_request (-1) 4)
    = Return ([], Some (other_error "negative offset")).
Proof.
  split.
  - apply (proj1 (passthrough_relays_ReadAt _ (read_request 0 (-1)))). simpl. lia.
  - rewrite (proj2 (passthrough_relays_ReadAt _ (read_request (-1) 4))) by (simpl; lia).
    reflexivity.
Defined.

(** X7. On a file that reads without failure, a passthrough read with an
    offset and a size that are not negative returns, without error, the
    bytes of the file from the offset on, as many as were asked for or as
    are left. *)
Theorem passthrough_exact (nf : nativeFile) (req : ReadRequest) :
  read_fault (file_inode (native_File nf)) = None ->
  0 <= req_Offset req ->
  0 <= req_Size req ->
  nativeFile_Read nf req =
  Return (take (Z.to_nat (req_Size req))
               (drop (Z.to_nat (req_Offset req)) (contents (file_inode (native_File nf)))),
          None).
Proof.
  intros Hf Ho Hs.
  rewrite (proj2 (passthrough_relays_ReadAt nf req) Hs).
  unfold File_ReadAt.
  destruct (Z.ltb_spec (req_Offset req) 0); [lia |].
  unfold read_span, short_read_error. rewrite Hf.
  by destruct (_ <? _)%nat.
Qed.

Lemma passthrough_exact_witness :
  nativeFile_Read {| native_File := {| file_path := "/both/intro.ogg";
                                       file_inode := regular_file ogg_bytes |} |}
                  (read_request 0 4)
    = Return ([x4f; x67; x67; x53], None).
Proof.
  rewrite passthrough_exact; [reflexivity | reflexivity | simpl; lia | simpl; lia].
Defined.

(** X8. On a file that reads without failure, two passthrough reads of
    adjoining ranges return, put together, what one read of the joined
    range returns. *)
Theorem passthrough_adjoining (nf : nativeFile) (off n m : Z) (d1 d2 : list byte) :
  read_fault (file_inode (native_File nf)) = None ->
  0 <= off -> 0 <= n -> 0 <= m ->
  nativeFile_Read nf (read_request off n) = Return (d1, None) ->
  nativeFile_Read nf (read_request (off + n) m) = Return (d2, None) ->
  nativeFile_Read nf (read_request off (n + m)) = Return (d1 ++ d2, None).
Proof.
  intros Hf Ho Hn Hm.
  rewrite !passthrough_exact by (try exact Hf; simpl; lia). simpl.
  intros [= <-] [= <-]. f_equal. f_equal.
  rewrite Z2Nat.inj_add by lia. rewrite Z2Nat.inj_add by lia.
  rewrite <- take_take_drop. f_equal. by rewrite drop_drop.
Qed.

Lemma passthrough_adjoining_witness :
  nativeFile_Read {| native_File := {| file_path := "/both/intro.ogg";
                                       file_inode := regular_file ogg_bytes |} |}
                  (read_request 1 3)
    = Return ([x67] ++ [x67; x53], None).
Proof.
  apply (passthrough_adjoining _ 1 1 2); try reflexivity; lia.
Defined.

(** ** Open, and a transcode from open to metadata *)

(** X11. When the node's path does not open and the encoder starts with a
    pipe that does not fail: opening the node, reading at least one byte at
    or past the end of the encoder's output, and then asking for the node's
    attributes reports end-of-stream on the read and, as the size, the
    number of bytes the encoder wrote. *)
Theorem transcode_end_to_end (env : Env) (s : Server) (f : file) (e : error)
    (p : Process) (req : ReadRequest) :
  os_Open env (file_name f) = Err e ->
  start env "ffmpeg" ["-i"; file_name f; "-f"; "ogg"; "-"] = Ok p ->
  broken (stdout p) = None ->
  plain req ->
  0 < req_Size req ->
  Len (pending (stdout p)) <= req_Offset req ->
  let s1 := (serve env s (ReqOpen f)).1 in
  let s2 := (serve env s1 (ReqRead (length (handles s)) req)).1 in
  (serve env s (ReqOpen f)).2 = RepOpen [encoder_command f] (Ok (length (handles s))) /\
  (serve env s1 (ReqRead (length (handles s)) req)).2
    = RepRead (Return (make (req_Size req), Some io_EOF)) /\
  (serve env s2 (ReqAttr f)).2
    = RepAttr {| Attr_Inode := 0; Attr_Mode := perm_0555;
                 Attr_Size := uint64 (Len (pending (stdout p))) |} None.
Proof.
  intros Ho Hs Hb Hp Hpos Hpast s1 s2.
  pose proof (file_Open_transcodes env f e p Ho Hs) as Hopen.
  set (fh := {| fh_name := file_name f; fh_close := wait p; fh_pipe := stdout p;
                fh_buffer := []; fh_encoder := file_encoder f |}) in *.
  assert (Hs1 : s1 = {| globals := globals s;
                        handles := handles s ++ [Some (HandleTranscode fh)] |}).
  { unfold s1. simpl. by rewrite Hopen. }
  assert (Hrep1 : (serve env s (ReqOpen f)).2
                  = RepOpen [encoder_command f] (Ok (length (handles s)))).
  { simpl. by rewrite Hopen. }
  assert (Hh : handles s1 !! length (handles s) = Some (Some (HandleTranscode fh))).
  { rewrite Hs1. simpl. by apply list_lookup_middle. }
  destruct (read_past_end fh (allSizes (globals s1)) req Hp Hpos Hpast Hb)
    as (Hout & Hsz & _ & _).
  assert (Hread : serve env s1 (ReqRead (length (handles s)) req) =
                  ({| globals := with_sizes (globals s1)
                                   (fileHandle_Read fh (allSizes (globals s1)) req).1.2;
                      handles := <[length (handles s) :=
                                     Some (HandleTranscode
                                             (fileHandle_Read fh (allSizes (globals s1)) req).1.1)]>
                                   (handles s1) |},
                   RepRead (fileHandle_Read fh (allSizes (globals s1)) req).2)).
  { simpl. rewrite Hh.
    by destruct (fileHandle_Read fh (allSizes (globals s1)) req) as [[fh' sizes'] out]. }
  split; [exact Hrep1 |].
  split; [by rewrite Hread, Hout |].
  unfold s2. rewrite Hread. cbn [fst serve].
  rewrite (file_Attr_cached env _ f zero_Attr (uint64 (Len (pending (stdout p))))); [done |].
  simpl. rewrite Hsz. apply lookup_insert_eq.
Qed.

Lemma transcode_end_to_end_witness :
  plain (read_request 6 4096) /\
  (serve sample_env
     (serve sample_env (serve sample_env fresh_server (ReqOpen ghost_file)).1
            (ReqRead 0 (read_request 6 4096))).1
     (ReqAttr ghost_file)).2
  = RepAttr {| Attr_Inode := 0; Attr_Mode := perm_0555; Attr_Size := 6 |} None.
Proof.
  assert (Hp : plain (read_request 6 4096)).
  { unfold plain. simpl. lia. }
  split; [exact Hp |].
  destruct (transcode_end_to_end sample_env fresh_server ghost_file os_ErrNotExist
              {| stdout := {| pending := [x4f; x67; x67; x53; x01; x02]; broken := None |};
                 wait := None |}
              (read_request 6 4096)) as (_ & _ & Hattr);
    [reflexivity | reflexivity | reflexivity | exact Hp | simpl; lia
    | unfold Len; simpl; lia | exact Hattr].
Defined.

(** ** Attributes *)

(** X12. [file.Attr] returns an error in one situation only: no size is
    cached, nothing exists at the node's path, [allFiles] maps the path,
    and [os.Stat] of the mapped path fails; the error is that failure.
    Any other failure of [os.Stat] on the node's own path is not
    reported. *)
Theorem Attr_error_iff (env : Env) (g : Globals) (f : file) (a : Attr) (e : error) :
  (file_Attr env g f a).2 = Some e <->
  allSizes g !! file_name f = None /\
  os_Stat env (file_name f) = Err os_ErrNotExist /\
  exists baseName, allFiles g !! file_name f = Some baseName /\
                   os_Stat env baseName = Err e.
Proof.
  unfold file_Attr.
  destruct (allSizes g !! file_name f) as [v |]; simpl.
  { split; [done | by intros [? _]]. }
  destruct (os_Stat env (file_name f)) as [st | e1] eqn:Hst; simpl.
  { split; [done | by intros (_ & ? & _)]. }
  destruct e1; simpl; try (split; [done | by intros (_ & ? & _)]).
  destruct (allFiles g !! file_name f) as [baseName |]; simpl.
  - destruct (os_Stat env baseName) as [st | e2] eqn:Hb; simpl.
    + split; [done |]. intros (_ & _ & b & [= <-] & Hb'). congruence.
    + split.
      * intros [= <-]. split; [done |]. split; [done |]. by exists baseName.
      * intros (_ & _ & b & [= <-] & Hb'). congruence.
  - split; [done |]. by intros (_ & _ & b & ? & _).
Qed.

Lemma file_Attr_mode (env : Env) (g : Globals) (f : file) (a : Attr) :
  Attr_Mode (file_Attr env g f a).1 = perm_0555 /\
  Attr_Inode (file_Attr env g f a).1 = Attr_Inode a.
Proof.
  unfold file_Attr.
  destruct (allSizes g !! file_name f); [done |].
  destruct (os_Stat env (file_name f)) as [st | e]; [done |].
  destruct (IsNotExist (Some e)); [| done].
  destruct (allFiles g !! file_name f) as [b |]; [| done].
  by destruct (os_Stat env b).
Qed.

(** X13. Whatever the node and whatever else happens in the call, the
    mode [Attr] reports has no write permission bit, has the read and
    execute bits of [0555], and has the directory bit exactly for the root
    and for directories. *)
Theorem Attr_mode_read_only (env : Env) (g : Globals) (n : Node) (a : Attr) :
  let mode := Attr_Mode (Node_Attr env g n a).1 in
  Z.land mode perm_0222 = 0 /\
  Z.land mode perm_0555 = perm_0555 /\
  Z.testbit mode 31 = match n with NodeFile _ => false | _ => true end.
Proof.
  destruct n as [r | d | f]; simpl.
  - by vm_compute.
  - by vm_compute.
  - rewrite (proj1 (file_Attr_mode env g f a)). by vm_compute.
Qed.

(** ** Lookup *)

(** X14. [dir.Lookup] returns a node exactly when something that opens
    exists at the path it settled on and is a directory or a regular file:
    a directory node for a directory, a file node for a regular file, named
    after that path and carrying the parent's encoder. *)
Theorem Lookup_node_iff (env : Env) (files : gmap string string) (d : dir)
    (name : string) (n : Node) :
  dir_Lookup env files d name = Ok n <->
  exists i,
    path_state env (Lookup_target env files d name) = Present i /\
    open_err i = None /\
    ((st_mode i = ModeDir /\
      n = NodeDir {| dir_dir := Lookup_target env files d name;
                     dir_encoder := dir_encoder d |}) \/
     (st_mode i = ModeRegular /\
      n = NodeFile {| file_name := Lookup_target env files d name;
                      file_encoder := dir_encoder d |})).
Proof.
  unfold dir_Lookup, open_node, os_Open.
  destruct (path_state env (Lookup_target env files d name)) as [| msg | i]; simpl.
  - split; [done | by intros (i & ? & _)].
  - split; [done | by intros (i & ? & _)].
  - destruct (open_err i) as [msg |] eqn:Ho; simpl.
    + split; [done |]. intros (i' & [= <-] & Ho' & _). congruence.
    + destruct (st_mode i) eqn:Hm; simpl.
      * split.
        -- intros [= <-]. exists i. split; [done |]. split; [done |]. by left.
        -- intros (i' & [= <-] & _ & [[_ ->] | [Hm' _]]); [done | congruence].
      * split.
        -- intros [= <-]. exists i. split; [done |]. split; [done |]. by right.
        -- intros (i' & [= <-] & _ & [[Hm' _] | [_ ->]]); [congruence | done].
      * split; [done |].
        intros (i' & [= <-] & _ & [[Hm' _] | [Hm' _]]); congruence.
Qed.

(** ** From a listing to a lookup *)

Lemma step_files_audio (env : Env) (d : dir) (files : gmap string string)
    (out : list Dirent) (ent : FileInfo) :
  IsRegular (Mode ent) = true ->
  isAudio env (Join env (dir_dir d) (Name ent)) = true ->
  os_Stat env (Join env (dir_dir d) (renamed (Name ent))) = Err os_ErrNotExist ->
  (ReadDirAll_step env d (files, out) ent).1 =
  <[Join env (dir_dir d) (renamed (Name ent)) := Join env (dir_dir d) (Name ent)]> files.
Proof.
  intros Hr Ha Hs. unfold ReadDirAll_step, renamed in *.
  destruct (Mode ent); try done. simpl. by rewrite Ha, Hs.
Qed.

Lemma fold_left_snoc {A B} (f : A -> B -> A) (l : list B) (x : B) (a : A) :
  fold_left f (l ++ [x]) a = f (fold_left f l a) x.
Proof. by rewrite fold_left_app. Qed.

(** The mapping a listing leaves at a renamed path, when the audio entries
    renamed to that path all come from one name. *)
Lemma fold_files_registered (env : Env) (d : dir) (ents : list FileInfo)
    (files : gmap string string) (out : list Dirent) (ent : FileInfo) :
  ent ∈ ents ->
  IsRegular (Mode ent) = true ->
  isAudio env (Join env (dir_dir d) (Name ent)) = true ->
  os_Stat env (Join env (dir_dir d) (renamed (Name ent))) = Err os_ErrNotExist ->
  (forall other, other ∈ ents ->
     isAudio env (Join env (dir_dir d) (Name other)) = true ->
     Join env (dir_dir d) (renamed (Name other)) = Join env (dir_dir d) (renamed (Name ent)) ->
     Join env (dir_dir d) (Name other) = Join env (dir_dir d) (Name ent)) ->
  (fold_left (ReadDirAll_step env d) ents (files, out)).1
    !! Join env (dir_dir d) (renamed (Name ent))
  = Some (Join env (dir_dir d) (Name ent)).
Proof.
  intros Hin Hr Ha Hs. induction ents as [| x l IH] using rev_ind; intros Huniq.
  { by apply elem_of_nil in Hin. }
  rewrite fold_left_snoc.
  destruct (fold_left (ReadDirAll_step env d) l (files, out)) as [files' out'] eqn:Hfold.
  apply elem_of_app in Hin as [Hin' | Hx].
  - assert (IH' : files' !! Join env (dir_dir d) (renamed (Name ent))
                  = Some (Join env (dir_dir d) (Name ent))).
    { apply IH; [done |]. intros other Ho. apply Huniq. apply elem_of_app. by left. }
    destruct (step_files env d files' out' x) as [-> | (Hxr & Hxa & Hxs & ->)]; [done |].
    destruct (decide (Join env (dir_dir d) (renamed (Name x))
                      = Join env (dir_dir d) (renamed (Name ent)))) as [Heq | Hneq].
    + rewrite Heq, lookup_insert_eq. f_equal. apply Huniq; [| done | done].
      apply elem_of_app. right. apply list_elem_of_here.
    + by rewrite lookup_insert_ne.
  - apply list_elem_of_singleton in Hx. subst x.
    rewrite step_files_audio by done. apply lookup_insert_eq.
Qed.

(** X15. After a listing, looking up the renamed name of a regular audio
    entry whose renamed path does not exist, and which is the only source
    of that renamed path in the directory, yields a node named after the
    entry's own path: a file node when that path opens as a regular file. *)
Theorem listing_then_lookup (env : Env) (files : gmap string string) (d : dir)
    (dh : File) (ents : list FileInfo) (ent : FileInfo) (i : Inode) :
  os_Open env (dir_dir d) = Ok dh ->
  File_Readdir dh = Ok ents ->
  ent ∈ ents ->
  IsRegular (Mode ent) = true ->
  isAudio env (Join env (dir_dir d) (Name ent)) = true ->
  os_Stat env (Join env (dir_dir d) (renamed (Name ent))) = Err os_ErrNotExist ->
  (forall other, other ∈ ents ->
     isAudio env (Join env (dir_dir d) (Name other)) = true ->
     Join env (dir_dir d) (renamed (Name other)) = Join env (dir_dir d) (renamed (Name ent)) ->
     Join env (dir_dir d) (Name other) = Join env (dir_dir d) (Name ent)) ->
  path_state env (Join env (dir_dir d) (Name ent)) = Present i ->
  open_err i = None ->
  st_mode i = ModeRegular ->
  dir_Lookup env (dir_ReadDirAll env files d).1 d (renamed (Name ent))
  = Ok (NodeFile {| file_name := Join env (dir_dir d) (Name ent);
                    file_encoder := dir_encoder d |}).
Proof.
  intros Ho Hrd Hin Hr Ha Hs Huniq Hp Hoe Hm.
  assert (Hmap : (dir_ReadDirAll env files d).1 !! Join env (dir_dir d) (renamed (Name ent))
                 = Some (Join env (dir_dir d) (Name ent))).
  { unfold dir_ReadDirAll. rewrite Ho, Hrd.
    pose proof (fold_files_registered env d ents files [] ent Hin Hr Ha Hs Huniq) as Hf.
    by destruct (fold_left _ ents (files, [])) as [files' out]. }
  unfold dir_Lookup, Lookup_target. rewrite Hs. simpl. rewrite Hmap.
  unfold open_node, os_Open. rewrite Hp, Hoe. simpl. by rewrite Hm.
Qed.

Lemma listing_then_lookup_witness :
  dir_Lookup sample_env (dir_ReadDirAll sample_env ∅ music).1 music "track.ogg"
  = Ok (NodeFile {| file_name := "/music/track.mp3"; file_encoder := "ogg" |}).
Proof.
  apply (listing_then_lookup sample_env ∅ music
           {| file_path := "/music";
              file_inode := directory [entry "track.mp3" (regular_file mp3_bytes)] |}
           [entry "track.mp3" (regular_file mp3_bytes)]
           (entry "track.mp3" (regular_file mp3_bytes))
           (regular_file mp3_bytes)); try reflexivity.
  - apply list_elem_of_here.
  - intros other Hother _ _. apply list_elem_of_singleton in Hother. by subst other.
Defined.

(** ** The shape of a listing *)

Lemma entry_out_kind (env : Env) (d : dir) (ent : FileInfo) :
  map Dirent_Type (entry_out env d ent) = (if listed ent then [kind_of ent] else []) /\
  map Dirent_Inode (entry_out env d ent) = (if listed ent then [0] else []).
Proof.
  unfold entry_out, ReadDirAll_step, listed, kind_of.
  destruct (Mode ent); simpl; try done.
  destruct (isAudio env _); [| done].
  by destruct (IsNotExist _).
Qed.

Lemma ReadDirAll_out (env : Env) (files : gmap string string) (d : dir)
    (dh : File) (ents : list FileInfo) :
  os_Open env (dir_dir d) = Ok dh ->
  File_Readdir dh = Ok ents ->
  (dir_ReadDirAll env files d).2 = Ok (concat (map (entry_out env d) ents)).
Proof.
  intros Ho Hr. unfold dir_ReadDirAll. rewrite Ho, Hr.
  pose proof (fold_out env d ents files []) as Hf.
  destruct (fold_left _ ents (files, [])) as [files' out]. simpl in *. by rewrite Hf.
Qed.

(** X16. A listing that succeeds has one entry for each directory and each
    regular file of the directory, in the directory's order, of kind
    directory or file accordingly, and none for anything else; every
    entry's inode number is left at zero. *)
Theorem listing_shape (env : Env) (files : gmap string string) (d : dir)
    (dh : File) (ents : list FileInfo) (out : list Dirent) :
  os_Open env (dir_dir d) = Ok dh ->
  File_Readdir dh = Ok ents ->
  (dir_ReadDirAll env files d).2 = Ok out ->
  map Dirent_Type out = map kind_of (filter (fun ent => listed ent = true) ents) /\
  Forall (fun e => Dirent_Inode e = 0) out.
Proof.
  intros Ho Hr Hout. rewrite (ReadDirAll_out env files d dh ents Ho Hr) in Hout.
  injection Hout as <-. clear Ho Hr.
  induction ents as [| ent ents [IH1 IH2]]; [by split |].
  simpl. rewrite map_app, IH1.
  destruct (entry_out_kind env d ent) as [Hk Hi].
  split.
  - rewrite Hk. destruct (listed ent) eqn:Hl.
    + by rewrite filter_cons_True.
    + rewrite filter_cons_False; [done |]. by rewrite Hl.
  - apply Forall_app. split; [| done].
    apply Forall_forall. intros e He.
    assert (Hin : Dirent_Inode e ∈ map Dirent_Inode (entry_out env d ent)).
    { apply list_elem_of_fmap. eauto. }
    rewrite Hi in Hin. destruct (listed ent).
    + by apply list_elem_of_singleton in Hin.
    + by apply elem_of_nil in Hin.
Qed.

Lemma listing_shape_witness :
  map Dirent_Type
      [ {| Dirent_Inode := 0; Dirent_Type := DT_File; Dirent_Name := "intro.ogg" |} ]
  = map kind_of (filter (fun ent => listed ent = true)
                        [entry "intro.mp3" (regular_file mp3_bytes);
                         entry "intro.ogg" named_pipe]).
Proof.
  apply (listing_shape sample_env ∅ fifo
           {| file_path := "/fifo";
              file_inode := directory [entry "intro.mp3" (regular_file mp3_bytes);
                                       entry "intro.ogg" named_pipe] |}); reflexivity.
Defined.

(** X17. A listing that succeeds shows every directory, and every regular
    file that [isAudio] does not accept, under its own name. *)
Theorem listing_verbatim (env : Env) (files : gmap string string) (d : dir)
    (dh : File) (ents : list FileInfo) (ent : FileInfo) :
  os_Open env (dir_dir d) = Ok dh ->
  File_Readdir dh = Ok ents ->
  ent ∈ ents ->
  listed ent = true ->
  IsDir (Mode ent) = true \/ isAudio env (Join env (dir_dir d) (Name ent)) = false ->
  exists out,
    (dir_ReadDirAll env files d).2 = Ok out /\
    {| Dirent_Inode := 0; Dirent_Type := kind_of ent; Dirent_Name := Name ent |} ∈ out.
Proof.
  intros Ho Hr Hin Hl Hplain.
  exists (concat (map (entry_out env d) ents)).
  split; [by apply (ReadDirAll_out env files d dh) |].
  apply (elem_of_concat_map _ _ ent); [done |].
  unfold entry_out, ReadDirAll_step, listed, kind_of in *.
  destruct (Mode ent); simpl in *; try done.
  - apply list_elem_of_here.
  - destruct Hplain as [? | ->]; [done |]. apply list_elem_of_here.
Qed.

Lemma listing_verbatim_witness :
  exists out,
    (dir_ReadDirAll lib_env ∅ lib).2 = Ok out /\
    {| Dirent_Inode := 0; Dirent_Type := DT_File; Dirent_Name := "notes.txt" |} ∈ out /\
    {| Dirent_Inode := 0; Dirent_Type := DT_Dir; Dirent_Name := "live" |} ∈ out.
Proof.
  destruct (listing_verbatim lib_env ∅ lib lib_handle lib_entries
              (entry "notes.txt" (regular_file text_bytes)))
    as (out & Hout & Hnotes);
    [reflexivity | reflexivity | apply list_elem_of_here | reflexivity
    | right; reflexivity |].
  destruct (listing_verbatim lib_env ∅ lib lib_handle lib_entries
              (entry "live" (directory [])))
    as (out' & Hout' & Hlive);
    [reflexivity | reflexivity | apply list_elem_of_further, list_elem_of_here
    | reflexivity | left; reflexivity |].
  exists out. split; [exact Hout |]. split; [exact Hnotes |].
  rewrite Hout in Hout'. injection Hout' as <-. exact Hlive.
Defined.

(** ** Listing again *)

(** What a turn of the loop does to [allFiles] does not depend on what
    [allFiles] holds: it leaves every map alone, or stores the same pair
    in every map. *)
Lemma step_files_uniform (env : Env) (d : dir) (ent : FileInfo) :
  (forall st, (ReadDirAll_step env d st ent).1 = st.1) \/
  (forall st, (ReadDirAll_step env d st ent).1 =
     <[Join env (dir_dir d) (renamed (Name ent)) := Join env (dir_dir d) (Name ent)]> st.1).
Proof.
  unfold ReadDirAll_step, renamed.
  destruct (negb (IsDir (Mode ent)) && negb (IsRegular (Mode ent)));
    [left; by intros [files out] |].
  destruct (DirentType_eqb _ DT_File && isAudio env _); [| left; by intros [files out]].
  destruct (IsNotExist _); [right | left]; by intros [files out].
Qed.

(** After the loop a key holds what it held before, whatever the map, or
    one value fixed by the directory, whatever the map. *)
Lemma fold_files_uniform (env : Env) (d : dir) (ents : list FileInfo) (k : string) :
  (forall st, (fold_left (ReadDirAll_step env d) ents st).1 !! k = st.1 !! k) \/
  (exists v, forall st, (fold_left (ReadDirAll_step env d) ents st).1 !! k = Some v).
Proof.
  induction ents as [| ent ents IH]; [by left |].
  cbn [fold_left].
  destruct IH as [Hpass | [v Hconst]]; [| right; exists v; by intros st].
  destruct (step_files_uniform env d ent) as [Hsame | Hins].
  - left. intros st. by rewrite Hpass, Hsame.
  - destruct (decide (Join env (dir_dir d) (renamed (Name ent)) = k)) as [Heq | Hne].
    + right. exists (Join env (dir_dir d) (Name ent)). intros st.
      rewrite Hpass, Hins, Heq. apply lookup_insert_eq.
    + left. intros st. rewrite Hpass, Hins. by apply lookup_insert_ne.
Qed.

(** X18. Listing a directory a second time, with nothing changed on disk,
    returns the same entries and leaves [allFiles] exactly as the first
    listing left it. *)
Theorem listing_twice (env : Env) (files : gmap string string) (d : dir) :
  dir_ReadDirAll env (dir_ReadDirAll env files d).1 d = dir_ReadDirAll env files d.
Proof.
  unfold dir_ReadDirAll.
  destruct (os_Open env (dir_dir d)) as [dh | e]; [| done].
  destruct (File_Readdir dh) as [ents | e]; [| done].
  pose proof (fold_out env d ents files []) as Ho1.
  destruct (fold_left (ReadDirAll_step env d) ents (files, [])) as [files1 out1] eqn:H1.
  cbn [fst].
  pose proof (fold_out env d ents files1 []) as Ho2.
  destruct (fold_left (ReadDirAll_step env d) ents (files1, [])) as [files2 out2] eqn:H2.
  simpl in Ho1, Ho2. subst out1 out2. f_equal.
  apply map_eq. intros k.
  destruct (fold_files_uniform env d ents k) as [Hpass | [v Hconst]].
  - pose proof (Hpass (files1, [])) as Hp. by rewrite H2 in Hp.
  - pose proof (Hconst (files1, [])) as Hc2. pose proof (Hconst (files, [])) as Hc1.
    rewrite H2 in Hc2. rewrite H1 in Hc1. simpl in *. by rewrite Hc1, Hc2.
Qed.

(** X19. A listing never removes a mapping: a path that [allFiles] maps
    before the call is still mapped after it. *)
Theorem listing_keeps_mappings (env : Env) (files : gmap string string) (d : dir)
    (k : string) :
  is_Some (files !! k) -> is_Some ((dir_ReadDirAll env files d).1 !! k).
Proof.
  intros Hk. unfold dir_ReadDirAll.
  destruct (os_Open env (dir_dir d)) as [dh | e]; [| done].
  destruct (File_Readdir dh) as [ents | e]; [| done].
  destruct (fold_files_uniform env d ents k) as [Hpass | [v Hconst]].
  - pose proof (Hpass (files, [])) as Hp.
    destruct (fold_left _ ents (files, [])) as [files' out]. simpl in *. by rewrite Hp.
  - pose proof (Hconst (files, [])) as Hc.
    destruct (fold_left _ ents (files, [])) as [files' out]. simpl in *.
    rewrite Hc. by eexists.
Qed.

Lemma listing_keeps_mappings_witness :
  is_Some ((dir_ReadDirAll sample_env {[ "/elsewhere/a.ogg" := "/elsewhere/a.mp3" ]} music).1
             !! "/elsewhere/a.ogg").
Proof.
  apply listing_keeps_mappings. rewrite lookup_singleton_eq. by eexists.
Defined.

(** ** The name an audio file is listed under *)

Lemma append_cons (c : ascii) (s t : string) :
  String c s +:+ t = String c (s +:+ t).
Proof. reflexivity. Qed.

Lemma append_nil (t : string) : "" +:+ t = t.
Proof. reflexivity. Qed.

Lemma list_ascii_app (s1 s2 : string) :
  list_ascii_of_string (s1 +:+ s2) = list_ascii_of_string s1 ++ list_ascii_of_string s2.
Proof.
  induction s1 as [| c s1 IH]; [done |].
  rewrite append_cons. simpl. by f_equal.
Qed.

Lemma append_empty_r (s : string) : s +:+ "" = s.
Proof.
  induction s as [| c s IH]; [done |].
  rewrite append_cons. by f_equal.
Qed.

Lemma prefix_refl (s : string) : String.prefix s s = true.
Proof.
  induction s as [| c s IH]; simpl; [done |].
  destruct (ascii_dec c c); [done | congruence].
Qed.

Lemma string_drop_all (s : string) : string_drop (String.length s) s = "".
Proof. induction s as [| c s IH]; simpl; done. Qed.

Lemma string_of_snoc (m : list ascii) (a : ascii) (t : string) :
  string_of_list_ascii (m ++ [a]) +:+ t = string_of_list_ascii m +:+ String a t.
Proof.
  induction m as [| c m IH]; [done |].
  simpl app. simpl string_of_list_ascii. rewrite !append_cons. by f_equal.
Qed.

(** Walking back over characters that are neither a dot nor a separator
    only collects them. *)
Lemma Ext_loop_skip (l rest : list ascii) (acc : string) :
  ~ In "."%char l -> ~ In "/"%char l ->
  Ext_loop (rev l ++ rest) acc = Ext_loop rest (string_of_list_ascii l +:+ acc).
Proof.
  revert acc. induction l as [| a l IH] using rev_ind; intros acc Hdot Hsep; [done |].
  rewrite rev_unit. simpl. unfold IsPathSeparator.
  destruct (Ascii.eqb_spec a "/") as [-> | _].
  { exfalso. apply Hsep. apply in_or_app. right. by left. }
  destruct (Ascii.eqb_spec a ".") as [-> | _].
  { exfalso. apply Hdot. apply in_or_app. right. by left. }
  rewrite IH.
  - by rewrite string_of_snoc.
  - intros H. apply Hdot. apply in_or_app. by left.
  - intros H. apply Hsep. apply in_or_app. by left.
Qed.

Lemma Ext_loop_dotless (before : list ascii) (acc : string) :
  ~ In "."%char before -> Ext_loop before acc = "".
Proof.
  revert acc. induction before as [| c before IH]; intros acc Hdot; [done |].
  simpl. destruct (IsPathSeparator c); [done |].
  destruct (Ascii.eqb_spec c ".") as [-> | _]; [exfalso; apply Hdot; by left |].
  apply IH. intros H. apply Hdot. by right.
Qed.

Lemma Ext_dotless (name : string) : without "." name -> Ext name = "".
Proof.
  intros H. unfold Ext. apply Ext_loop_dotless.
  intros Hin. apply H. by apply in_rev.
Qed.

Lemma Ext_single (stem e : string) :
  without "." e -> without "/" e ->
  Ext (stem +:+ String "." e) = String "." e.
Proof.
  intros Hdot Hsep. unfold Ext.
  rewrite list_ascii_app. simpl list_ascii_of_string.
  rewrite rev_app_distr. simpl rev. rewrite <- app_assoc. simpl app.
  rewrite Ext_loop_skip by done. simpl.
  by rewrite string_of_list_ascii_of_string, append_empty_r.
Qed.

Lemma prefix_cons_ne (a b : ascii) (s1 s2 : string) :
  a <> b -> String.prefix (String a s1) (String b s2) = false.
Proof.
  intros Hne. simpl. destruct (ascii_dec a b); [done | done].
Qed.

Lemma replace_first_cons (c : ascii) (s old new : string) :
  String.prefix old (String c s) = false ->
  replace_first (String c s) old new = String c (replace_first s old new).
Proof.
  intros H. unfold replace_first at 1. fold replace_first. by rewrite H.
Qed.

Lemma replace_first_here (s old new : string) :
  String.prefix old s = true ->
  replace_first s old new = new +:+ string_drop (String.length old) s.
Proof.
  intros H. destruct s; unfold replace_first; fold replace_first; by rewrite H.
Qed.

Lemma replace_first_at_dot (stem old new : string) :
  without "." stem ->
  replace_first (stem +:+ String "." old) (String "." old) new = stem +:+ new.
Proof.
  intros Hdot. induction stem as [| c stem IH].
  - rewrite !append_nil.
    rewrite replace_first_here by apply prefix_refl.
    by rewrite string_drop_all, append_empty_r.
  - assert (Hc : "."%char <> c).
    { intros <-. apply Hdot. by left. }
    rewrite !append_cons.
    rewrite replace_first_cons by (by apply prefix_cons_ne).
    f_equal. apply IH. intros H. apply Hdot. by right.
Qed.

(** X20. A name made of a stem without dots, a dot, and an extension
    without dots or separators is listed, when it is audio, as the stem
    followed by [.ogg]. *)
Theorem renamed_single_ext (stem e : string) :
  without "." stem -> without "." e -> without "/" e ->
  renamed (stem +:+ String "." e) = stem +:+ ".ogg".
Proof.
  intros Hstem Hdot Hsep. unfold renamed. rewrite Ext_single by done.
  unfold Replace1. destruct (String.eqb_spec (String "." e) ".ogg") as [Heq | _].
  - by rewrite Heq.
  - by apply replace_first_at_dot.
Qed.

Lemma renamed_single_ext_witness : renamed "track.mp3" = "track.ogg".
Proof.
  apply (renamed_single_ext "track" "mp3");
    unfold without; simpl; intros H; repeat (destruct H as [H | H]; [discriminate |]); done.
Defined.

(** X21. A name without any dot has no extension to replace, and is
    listed, when it is audio, with [.ogg] put in front of it. *)
Theorem renamed_no_dot (name : string) :
  without "." name -> renamed name = ".ogg" +:+ name.
Proof.
  intros H. unfold renamed. rewrite Ext_dotless by done.
  unfold Replace1. simpl String.eqb. cbv iota.
  by rewrite replace_first_here by (by destruct name).
Qed.

Lemma renamed_no_dot_witness :
  (renamed "track" = ".oggtrack") /\
  (exists out,
     (dir_ReadDirAll lib_env ∅ lib).2 = Ok out /\
     ({| Dirent_Inode := 0; Dirent_Type := DT_File; Dirent_Name := ".oggtrack" |} ∈ out)).
Proof.
  split.
  - apply (renamed_no_dot "track").
    unfold without; simpl; intros H;
      repeat (destruct H as [H | H]; [discriminate |]); done.
  - eexists. split; [reflexivity |].
    do 4 apply list_elem_of_further. apply list_elem_of_here.
Defined.

(** ** What [isAudio] accepts *)

Lemma os_Open_healthy (env : Env) (path : string) (i : Inode) :
  path_state env path = Present i -> healthy i ->
  os_Open env path = Ok {| file_path := path; file_inode := i |}.
Proof.
  intros Hp [Ho _]. unfold os_Open. by rewrite Hp, Ho.
Qed.

(** X22. [isAudio] rejects a path that does not open, and rejects every
    readable file that holds at least one byte but fewer than 512,
    whatever its content and whatever its name, [.flac] included. *)
Theorem isAudio_rejects (env : Env) (path : string) :
  (forall e, os_Open env path = Err e -> isAudio env path = false) /\
  (forall i, path_state env path = Present i -> healthy i ->
             (0 < length (contents i) < 512)%nat ->
             isAudio env path = false).
Proof.
  split.
  - intros e He. unfold isAudio. by rewrite He.
  - intros i Hp Hh Hlen. unfold isAudio.
    rewrite (os_Open_healthy env path i Hp Hh).
    destruct Hh as [_ Hf].
    unfold ReadFull, read_span, short_read_error. cbn [file_inode].
    rewrite Hf, drop_0.
    rewrite take_ge by lia.
    destruct (Nat.ltb_spec (length (contents i)) 512) as [_ | Hge]; [| lia].
    destruct (Nat.eqb_spec (length (contents i)) 0) as [Hz | _]; [lia |].
    done.
Qed.

Lemma isAudio_rejects_witness :
  HasSuffix "/lib/tiny.flac" ".flac" = true /\
  isAudio lib_env "/lib/tiny.flac" = false /\
  isAudio lib_env "/lib/missing.flac" = false.
Proof.
  split; [reflexivity |].
  split.
  - apply (proj2 (isAudio_rejects lib_env "/lib/tiny.flac") (regular_file (repeat x61 10)));
      [reflexivity | by split | simpl; lia].
  - apply (proj1 (isAudio_rejects lib_env "/lib/missing.flac") os_ErrNotExist).
    reflexivity.
Defined.

(** X23. For a readable file of at least 512 bytes, [isAudio] depends only
    on the first 512 bytes and on the path: it holds exactly when the
    detected type of those bytes starts with [audio/] or [video/] or is
    [application/ogg], or the path ends in [.flac].  For an empty readable
    file the same test is made on 512 zero bytes. *)
Theorem isAudio_sniffs (env : Env) (path : string) (i : Inode) :
  path_state env path = Present i ->
  healthy i ->
  ((512 <= length (contents i))%nat ->
   isAudio env path = audio_type env (take 512 (contents i)) path) /\
  (contents i = [] ->
   isAudio env path = audio_type env (repeat x00 512) path).
Proof.
  intros Hp Hh. unfold isAudio.
  rewrite (os_Open_healthy env path i Hp Hh).
  destruct Hh as [_ Hf].
  unfold ReadFull, read_span, short_read_error. cbn [file_inode].
  rewrite Hf, drop_0.
  split.
  - intros Hlen.
    destruct (Nat.ltb_spec (length (take 512 (contents i))) 512) as [Hlt | _].
    { rewrite length_take in Hlt. lia. }
    rewrite copy_fits by (rewrite repeat_length, length_take; lia).
    cbn [fst].
    assert (Hdrop : drop (length (take 512 (contents i))) (repeat x00 512) = []).
    { apply drop_ge. rewrite repeat_length, length_take. lia. }
    rewrite Hdrop, app_nil_r. done.
  - intros ->. rewrite take_nil.
    destruct (Nat.ltb_spec (length (@nil byte)) 512) as [_ | Hge]; [| simpl in Hge; lia].
    rewrite copy_fits by (simpl; lia).
    cbn [fst length]. rewrite drop_0. done.
Qed.

Lemma isAudio_sniffs_witness :
  isAudio lib_env "/lib/big.flac" = true /\
  isAudio lib_env "/lib/notes.txt" = false.
Proof.
  split.
  - rewrite (proj1 (isAudio_sniffs lib_env "/lib/big.flac" (regular_file text_bytes)
                      eq_refl (conj eq_refl eq_refl))); [reflexivity |].
    change (512 <= length (repeat x61 600))%nat. rewrite repeat_length. lia.
  - rewrite (proj1 (isAudio_sniffs lib_env "/lib/notes.txt" (regular_file text_bytes)
                      eq_refl (conj eq_refl eq_refl))); [reflexivity |].
    change (512 <= length (repeat x61 600))%nat. rewrite repeat_length. lia.
Defined.

(** ** The root *)

(** X24. The root lists exactly the names it resolves: a name has an entry
    in the root's listing if and only if [Root.Lookup] of that name
    succeeds; the entry is of kind directory and the node is the directory
    node over the root's path with encoder [ogg]; every other name gets
    [fuse.ENOENT]. *)
Theorem Root_lists_what_it_resolves (r : Root) (name : string) :
  ((exists out e, Root_ReadDirAll r = Ok out /\ e ∈ out /\
                  Dirent_Name e = name /\ Dirent_Type e = DT_Dir) <->
   Root_Lookup r name = Ok (NodeDir {| dir_dir := Root_dir r; dir_encoder := "ogg" |})) /\
  (Root_Lookup r name = Ok (NodeDir {| dir_dir := Root_dir r; dir_encoder := "ogg" |}) \/
   Root_Lookup r name = Err fuse_ENOENT).
Proof.
  unfold Root_Lookup, Root_ReadDirAll.
  destruct (String.eqb_spec name "ogg") as [-> | Hne].
  - split; [| by left]. split; [done |]. intros _.
    eexists _, _. split; [done |]. split; [apply list_elem_of_here |]. done.
  - split; [| by right]. split; [| done].
    intros (out & e & [= <-] & He & Hn & _).
    apply list_elem_of_singleton in He. subst e. simpl in Hn. congruence.
Qed.

(** ** The earlier variant against the present one *)

Lemma fold_step_agrees (env : Env) (d : dir) (ents : list FileInfo)
    (files : gmap string string) (out : list Dirent) :
  (forall ent, ent ∈ ents -> IsRegular (Mode ent) = true ->
               isAudio env (Join env (dir_dir d) (Name ent)) = false) ->
  fold_left (ReadDirAll_step env d) ents (files, out)
  = (files, fold_left Earlier.ReadDirAll_step ents out).
Proof.
  revert out. induction ents as [| ent ents IH]; intros out Hno; [done |].
  cbn [fold_left].
  assert (Hstep : ReadDirAll_step env d (files, out) ent
                  = (files, Earlier.ReadDirAll_step out ent)).
  { unfold ReadDirAll_step, Earlier.ReadDirAll_step.
    pose proof (Hno ent (list_elem_of_here _ _)) as Hent.
    destruct (Mode ent); simpl in *; try done.
    by rewrite Hent. }
  rewrite Hstep. apply IH. intros e He. apply Hno. by apply list_elem_of_further.
Qed.

(** X25. In a directory where [isAudio] accepts no regular file, the
    present listing is the earlier one, entry for entry, and leaves
    [allFiles] untouched. *)
Theorem listing_as_earlier (env : Env) (files : gmap string string) (d : dir) :
  (forall dh ents ent,
     os_Open env (dir_dir d) = Ok dh -> File_Readdir dh = Ok ents ->
     ent ∈ ents -> IsRegular (Mode ent) = true ->
     isAudio env (Join env (dir_dir d) (Name ent)) = false) ->
  dir_ReadDirAll env files d = (files, Earlier.dir_ReadDirAll env d).
Proof.
  intros Hno. unfold dir_ReadDirAll, Earlier.dir_ReadDirAll.
  destruct (os_Open env (dir_dir d)) as [dh | e] eqn:Ho; [| done].
  destruct (File_Readdir dh) as [ents | e] eqn:Hr; [| done].
  rewrite (fold_step_agrees env d ents files []); [done |].
  intros ent. by apply (Hno dh ents).
Qed.

Lemma listing_as_earlier_witness :
  dir_ReadDirAll docs_env {[ "/music/track.ogg" := "/music/track.mp3" ]} docs
  = ({[ "/music/track.ogg" := "/music/track.mp3" ]},
     Ok [ {| Dirent_Inode := 0; Dirent_Type := DT_File; Dirent_Name := "notes.txt" |};
          {| Dirent_Inode := 0; Dirent_Type := DT_File; Dirent_Name := "readme" |};
          {| Dirent_Inode := 0; Dirent_Type := DT_Dir; Dirent_Name := "drafts" |} ]) /\
  Earlier.dir_ReadDirAll docs_env docs
  = (dir_ReadDirAll docs_env {[ "/music/track.ogg" := "/music/track.mp3" ]} docs).2.
Proof.
  assert (Hsame : dir_ReadDirAll docs_env {[ "/music/track.ogg" := "/music/track.mp3" ]} docs
                  = ({[ "/music/track.ogg" := "/music/track.mp3" ]},
                     Earlier.dir_ReadDirAll docs_env docs)).
  { apply listing_as_earlier.
    intros dh ents ent Ho Hr Hin Hreg.
    injection Ho as <-. injection Hr as <-.
    unfold docs_entries in Hin.
    repeat (apply elem_of_cons in Hin as [-> | Hin]); try reflexivity; try discriminate.
    by apply elem_of_nil in Hin. }
  split; [rewrite Hsame; reflexivity | by rewrite Hsame].
Defined.

(** X26. The two versions of [dir.Lookup] answer alike for every name
    except one whose joined path does not exist and is mapped by
    [allFiles]. *)
Theorem Lookup_as_earlier (env : Env) (files : gmap string string) (d : dir)
    (name : string) :
  IsNotExist (err_of (os_Stat env (Join env (dir_dir d) name))) = false \/
  files !! Join env (dir_dir d) name = None ->
  dir_Lookup env files d name = Earlier.dir_Lookup env d name.
Proof.
  intros H.
  assert (Ht : Lookup_target env files d name = Join env (dir_dir d) name).
  { unfold Lookup_target. destruct H as [-> | ->]; [done |].
    by destruct (IsNotExist _). }
  unfold dir_Lookup, open_node, Earlier.dir_Lookup. by rewrite Ht.
Qed.

Lemma Lookup_as_earlier_witness :
  dir_Lookup sample_env (dir_ReadDirAll sample_env ∅ music).1 music "track.mp3"
  = Earlier.dir_Lookup sample_env music "track.mp3" /\
  dir_Lookup sample_env (dir_ReadDirAll sample_env ∅ music).1 music "track.ogg"
  <> Earlier.dir_Lookup sample_env music "track.ogg".
Proof.
  split.
  - apply Lookup_as_earlier. left. reflexivity.
  - vm_compute. discriminate.
Defined.

Lemma uint64_int64 (z : Z) : uint64 (int64 z) = uint64 z.
Proof.
  unfold uint64, int64.
  rewrite Zminus_mod_idemp_l. f_equal. lia.
Qed.

Lemma uint64_mul (k z : Z) : uint64 (k * uint64 z) = uint64 (k * z).
Proof. unfold uint64. apply Z.mul_mod_idemp_r. lia. Qed.

(** X27. For a virtual name that is missing on disk, has no cached size
    and is mapped to a source, the present [file.Attr] answers exactly what
    the earlier [file.Attr] answered for a node of the source itself: ten
    times the source's size, computed modulo 2^64 either way, or the error
    of [os.Stat] on the source. *)
Theorem Attr_as_earlier (env : Env) (g : Globals) (sizes : gmap string Z)
    (virtual source : file) (a : Attr) :
  allSizes g !! file_name virtual = None ->
  os_Stat env (file_name virtual) = Err os_ErrNotExist ->
  allFiles g !! file_name virtual = Some (file_name source) ->
  sizes !! file_name source = None ->
  file_Attr env g virtual a = Earlier.file_Attr env sizes source a.
Proof.
  intros Hs Hst Hf Hs'. unfold file_Attr, Earlier.file_Attr.
  rewrite Hs, Hst, Hf, Hs'. simpl.
  destruct (os_Stat env (file_name source)) as [stat | e]; [| done].
  by rewrite uint64_int64, uint64_mul.
Qed.

Lemma Attr_as_earlier_witness :
  file_Attr sample_env (with_files no_globals (dir_ReadDirAll sample_env ∅ music).1)
            {| file_name := "/music/track.ogg"; file_encoder := "ogg" |} zero_Attr
  = ({| Attr_Inode := 0; Attr_Mode := perm_0555; Attr_Size := 6030 |}, None).
Proof.
  rewrite (Attr_as_earlier sample_env _ ∅ _
             {| file_name := "/music/track.mp3"; file_encoder := "ogg" |});
    reflexivity.
Defined.

(** ** Instances of the characterisations *)

Lemma Attr_error_iff_witness :
  (file_Attr sample_env
     {| allSizes := ∅; allFiles := {[ "/music/gone.ogg" := "/music/gone.mp3" ]} |}
     {| file_name := "/music/gone.ogg"; file_encoder := "ogg" |} zero_Attr).2
  = Some os_ErrNotExist.
Proof.
  apply Attr_error_iff.
  split; [reflexivity |]. split; [reflexivity |].
  exists "/music/gone.mp3". split; [apply lookup_singleton_eq | reflexivity].
Defined.

Lemma Lookup_node_iff_witness :
  dir_Lookup sample_env ∅ music "track.mp3"
  = Ok (NodeFile {| file_name := "/music/track.mp3"; file_encoder := "ogg" |}).
Proof.
  apply Lookup_node_iff. exists (regular_file mp3_bytes).
  split; [reflexivity |]. split; [reflexivity |]. right. split; reflexivity.
Defined.

Lemma Root_lists_what_it_resolves_witness :
  Root_Lookup {| Root_dir := "/music" |} "ogg"
  = Ok (NodeDir {| dir_dir := "/music"; dir_encoder := "ogg" |}).
Proof.
  apply (proj1 (Root_lists_what_it_resolves {| Root_dir := "/music" |} "ogg")).
  eexists _, _. split; [reflexivity |]. split; [apply list_elem_of_here |]. done.
Defined.
